(** * Repository ranking and cache synchronisation of the Raycast
      "My GitHub Repositories" command

    A shallow embedding of
      - [src/services/repositories.ts]  (usage score, fetch),
      - [src/lib/github-client.ts]      (error classification),
      - [src/github-repositories.tsx]   (access ledger, cache, ranking,
                                         the load flow of the command),
    followed by the properties the specification states about them.
    The sources hold two revisions of [github-repositories.tsx]; the
    ranking is the same in both, and the one embedded is the later, which
    loads through the cache.

    Conventions of the embedding.
      - A JavaScript number that holds a timestamp or a count is an integer
        well below 2^53, on which double arithmetic is exact: it is a [Z].
      - A usage score is a finite double, hence a dyadic rational: it is a
        [Q].  The operations that round are wrapped in an explicit rounding
        operator [fl]; [Math.exp] and the date parser belong to the engine
        and are parameters as well.
      - [LocalStorage] is a finite map from keys to strings; what
        [JSON.stringify] and [JSON.parse] do is a parameter.
      - Asynchronous code runs in a state-and-exception monad.  The state
        holds the store, the component state and the log of what the
        command did, in order; the answers of the outside world (clock,
        GitHub) are fixed beforehand in an environment. *)

From Stdlib Require Import ZArith QArith Qround Lqa String Ascii.
From Stdlib Require Import DecimalString DecimalZ.
From stdpp Require Import gmap strings list sorting.

Local Open Scope string_scope.
Local Open Scope list_scope.

Local Open Scope Z_scope.

(* ===================================================================== *)
(** * Part I: definitions                                                *)
(* ===================================================================== *)

(** ** JavaScript primitives the sources rely on *)

Module JS.

(** [v || 0] on a property read of an object whose values are integers:
    [undefined] (no such property) and [0] are the falsy cases. *)
Definition or_zero (v : option Z) : Z :=
  match v with
  | Some t => if t =? 0 then 0 else t
  | None => 0
  end.

(** Truthiness of a string that may be [undefined] or [null]: the empty
    string is falsy as well. *)
Definition truthy (s : option string) : bool :=
  match s with
  | Some (String _ _) => true
  | _ => false
  end.

(** An object reference that may be [null] is truthy when it is not. *)
Definition is_Some_b {T : Type} (v : option T) : bool :=
  match v with
  | Some _ => true
  | None => false
  end.

(** [s || d] on strings. *)
Definition or_string (s : option string) (d : string) : string :=
  match s with
  | Some (String c r) => String c r
  | _ => d
  end.

(** [s.includes(sub)] *)
Definition includes (s sub : string) : bool :=
  match String.index 0 sub s with
  | Some _ => true
  | None => false
  end.

(** *** [Number.prototype.toString] and [parseInt(_, 10)] on integers *)

Definition Number_toString (z : Z) : string :=
  NilZero.string_of_int (Z.to_int z).

Definition isWhiteSpace (c : ascii) : bool :=
  let n := nat_of_ascii c in
  ((9 <=? n)%nat && (n <=? 13)%nat) || (n =? 32)%nat || (n =? 160)%nat.

Definition isDigit (c : ascii) : bool :=
  let n := nat_of_ascii c in (48 <=? n)%nat && (n <=? 57)%nat.

Fixpoint trimStart (s : string) : string :=
  match s with
  | String c r => if isWhiteSpace c then trimStart r else s
  | EmptyString => s
  end.

(** The longest prefix made of decimal digits. *)
Fixpoint digits (s : string) : string :=
  match s with
  | String c r => if isDigit c then String c (digits r) else EmptyString
  | EmptyString => EmptyString
  end.

(** [parseInt(s, 10)]: leading white space is skipped, a sign is read, the
    digits that follow are the value, and what comes after them is
    ignored.  [None] stands for [NaN]. *)
Definition parseInt (s : string) : option Z :=
  let s := trimStart s in
  let '(sign, s) :=
    match s with
    | String "-"%char r => (-1, r)
    | String "+"%char r => (1, r)
    | _ => (1, s)
    end in
  match digits s with
  | EmptyString => None
  | z => (λ d, sign * Z.of_uint d) <$> NilEmpty.uint_of_string z
  end.

(** *** [Array.prototype.sort] *)

Section ArraySort.
Context {A : Type}.
(** [compareFn a b]: negative when [a] goes first, positive when [b] goes
    first, zero when the two are left in their order. *)
Variable compareFn : A → A → Q.

(** [x] stood in front of every element of [l]; it moves right past the
    elements that have to come first and stops at the first one that does
    not. *)
Fixpoint sort_insert (x : A) (l : list A) : list A :=
  match l with
  | [] => [x]
  | y :: l' =>
      if Qle_bool (compareFn x y) 0 then x :: y :: l'
      else y :: sort_insert x l'
  end.

(** ECMAScript fixes the result of [sort] for a consistent comparator: the
    stable sorted arrangement.  Insertion from the right end computes it. *)
Fixpoint Array_sort (l : list A) : list A :=
  match l with
  | [] => []
  | x :: l' => sort_insert x (Array_sort l')
  end.

(** [x] may stand in front of [y]. *)
Definition may_precede (x y : A) : Prop := (compareFn x y <= 0)%Q.

(** The comparator does not tell [x] and [y] apart. *)
Definition same_rank (x y : A) : Prop := may_precede x y ∧ may_precede y x.

Global Instance same_rank_dec x y : Decision (same_rank x y).
Proof.
  unfold same_rank, may_precede.
  destruct (Qlt_le_dec 0 (compareFn x y)) as [Hxy|Hxy];
    [right; intros [H _]; by apply Qlt_not_le in Hxy|].
  destruct (Qlt_le_dec 0 (compareFn y x)) as [Hyx|Hyx];
    [right; intros [_ H]; by apply Qlt_not_le in Hyx|].
  by left.
Defined.
End ArraySort.

(** *** The engine's numeric library *)

Class Engine := {
  (** [new Date(s).getTime()], milliseconds since the epoch *)
  Date_getTime : string → Z;
  (** [Math.exp], an implementation-approximated double *)
  Math_exp : Q → Q;
  (** rounding of an exact result to the nearest double *)
  fl : Q → Q
}.

(** What IEEE 754 and ECMAScript say about them, as far as it is used. *)
Class EngineLaws `{Engine} : Prop := {
  (** [Math.exp(+0) = Math.exp(-0) = 1] *)
  Math_exp_zero : ∀ x : Q, (x == 0)%Q → (Math_exp x == 1)%Q;
  (** integers up to 2^53 are doubles *)
  fl_integer : ∀ (x : Q) (z : Z),
    (x == inject_Z z)%Q → Z.abs z <= 2 ^ 53 → (fl x == inject_Z z)%Q;
  (** rounding is monotone *)
  fl_monotone : ∀ x y : Q, (x <= y)%Q → (fl x <= fl y)%Q
}.

(** *** [JSON] *)

Class Json (T : Type) := {
  JSON_stringify : T → string;
  (** [None]: [JSON.parse] throws a [SyntaxError] *)
  JSON_parse : string → option T
}.

(** Text written by [JSON.stringify] is never empty and parses back to the
    value it was made from. *)
Class JsonLaws (T : Type) `{Json T} : Prop := {
  JSON_parse_stringify : ∀ v : T, JSON_parse (JSON_stringify v) = Some v;
  JSON_stringify_truthy : ∀ v : T, JSON_stringify v ≠ EmptyString
}.

End JS.
Export JS.

(** Every occurrence of [a] in [l] lies in front of every occurrence of
    [b], and both do occur. *)
Definition precedes {X : Type} (a b : X) (l : list X) : Prop :=
  (∃ i j : nat, (i < j)%nat ∧ l !! i = Some a ∧ l !! j = Some b) ∧
  (∀ i j : nat, l !! i = Some a → l !! j = Some b → (i < j)%nat).

(** ** [services/repositories.ts]: the data model *)

Record Repository : Type := mkRepository {
  id : string;
  name : string;
  owner : string;
  fullName : string;
  description : option string;
  url : string;
  stars : Z;
  language : option string;
  updatedAt : string;
  pushedAt : string;
  isPrivate : bool;
  usageScore : Q
}.

(** ** [lib/github-client.ts] *)

(** What a [throw] carries: an [Error] with its message, or anything else. *)
Inductive thrown : Type :=
  | JsError (message : string)
  | JsOther.

Definition handleGitHubError (error : thrown) : thrown :=
  match error with
  | JsError message =>
      if includes message "Bad credentials" then
        JsError "Invalid GitHub token. Please check your credentials."
      else if includes message "rate limit" then
        JsError "GitHub API rate limit exceeded. Please try again later."
      else if includes message "ENOTFOUND" || includes message "network" then
        JsError "Unable to connect to GitHub. Please check your internet connection."
      else if includes message "Resource protected by organization SAML enforcement" then
        JsError "GitHub token is missing authorization for organizations that use SSO. Please re-authenticate to fix this."
      else error
  | JsOther => JsError "Unknown GitHub API error occurred"
  end.

(** ** [services/repositories.ts]: the usage score *)

(** An element of the answer of the GitHub API, as far as it is read.  A
    field that may be missing or [null] is an option. *)
Module Api.
Record repo : Type := mkRepo {
  id : Z;
  name : string;
  owner_login : option string;
  full_name : string;
  description : option string;
  html_url : string;
  stargazers_count : option Z;
  language : option string;
  updated_at : string;
  pushed_at : option string;
  private : bool
}.
End Api.

Section UsageScore.
Context `{Engine}.

(** [calculateUsageScore].  The argument object is passed field by field;
    [now] is the value of [new Date().getTime()] read in the body. *)
Definition calculateUsageScore (now : Z)
    (stargazers_count : Z) (updated_at pushed_at : string) : Q :=
  let stars := stargazers_count in
  let updated := Date_getTime updated_at in
  let pushed := Date_getTime pushed_at in
  let daysSinceUpdate :=
    fl (inject_Z (now - updated) / inject_Z (1000 * 60 * 60 * 24)) in
  let daysSincePush :=
    fl (inject_Z (now - pushed) / inject_Z (1000 * 60 * 60 * 24)) in
  let recencyScore :=
    fl (fl (Math_exp (fl (- daysSinceUpdate / 30)) * 100) +
        fl (Math_exp (fl (- daysSincePush / 30)) * 100)) in
  let score := fl (fl (inject_Z stars * 2) + recencyScore) in
  score.

(** The object literal that [fetchRepositories] and
    [fetchRepositoriesByOwner] map over the answer; [now] is the clock
    reading of the call of [calculateUsageScore] for this element. *)
Definition toRepository (now : Z) (repo : Api.repo) : Repository :=
  {| id := Number_toString (Api.id repo);
     name := Api.name repo;
     owner := or_string (Api.owner_login repo) "";
     fullName := Api.full_name repo;
     description := Api.description repo;
     url := Api.html_url repo;
     stars := or_zero (Api.stargazers_count repo);
     language := Api.language repo;
     updatedAt := Api.updated_at repo;
     pushedAt := or_string (Api.pushed_at repo) (Api.updated_at repo);
     isPrivate := Api.private repo;
     usageScore :=
       calculateUsageScore now
         (or_zero (Api.stargazers_count repo))
         (Api.updated_at repo)
         (or_string (Api.pushed_at repo) (Api.updated_at repo)) |}.
End UsageScore.

(** [(a, b) => b.usageScore - a.usageScore]: the difference of two finite
    doubles has the sign of the exact difference. *)
Definition compareByUsageScore (a b : Repository) : Q :=
  (usageScore b - usageScore a)%Q.

(** ** [github-repositories.tsx]: ranking *)

(** [interface RepositoryAccessTimes { [repoId: string]: number }].  The
    keys are repository ids, decimal renderings of GitHub's numeric ids, so
    a key never meets a member of [Object.prototype]; the values are
    readings of [Date.now()]. *)
Abbreviation RepositoryAccessTimes := (gmap string Z).

(** [accessTimes[r.id] || 0] *)
Definition accessTime (accessTimes : RepositoryAccessTimes) (r : Repository) : Z :=
  JS.or_zero (accessTimes !! id r).

(** The comparator handed to [sort] in [sortRepositoriesByAccess].  Both
    differences are exact: the first is a difference of integers, the
    second a difference of two finite doubles, whose rounded value has the
    sign of the exact one. *)
Definition compareByAccess (accessTimes : RepositoryAccessTimes)
    (a b : Repository) : Q :=
  let aTime := accessTime accessTimes a in
  let bTime := accessTime accessTimes b in
  if negb (aTime =? bTime) then inject_Z (bTime - aTime)
  else (usageScore b - usageScore a)%Q.

Definition sortRepositoriesByAccess (repos : list Repository)
    (accessTimes : RepositoryAccessTimes) : list Repository :=
  JS.Array_sort (compareByAccess accessTimes) repos.

(** Same last access and same usage score: the comparator says zero. *)
Definition tied (accessTimes : RepositoryAccessTimes) (a b : Repository) : Prop :=
  accessTime accessTimes a = accessTime accessTimes b ∧
  (usageScore a == usageScore b)%Q.

Global Instance tied_dec accessTimes a b : Decision (tied accessTimes a b).
Proof.
  unfold tied.
  destruct (decide (accessTime accessTimes a = accessTime accessTimes b));
    destruct (Qeq_dec (usageScore a) (usageScore b));
    [left | right | right | right]; tauto.
Defined.

(** ** The world the command runs in *)

(** The state of the component ([useState]). *)
Record Component : Type := mkComponent {
  repositories : list Repository;
  sortedRepositories : list Repository;
  isLoading : bool;
  error : option string;
  currentUser : string;
  accessTimes : RepositoryAccessTimes
}.

(** The component when it is mounted: the initial values of [useState]. *)
Definition mounted : Component :=
  {| repositories := []; sortedRepositories := []; isLoading := true;
     error := None; currentUser := ""; accessTimes := ∅ |}.

Inductive Request : Type :=
  | ReposListForAuthenticatedUser
  | ReposListForUser (username : string)
  | UsersGetAuthenticated.

(** What the command does that can be seen from outside, one entry per
    action: a state update (with the component state it leads to), a
    request sent to GitHub, a write to the store, a toast. *)
Inductive Event : Type :=
  | Shown (c : Component)
  | Network (r : Request)
  | Stored (key value : string)
  | Toast (title message : string).

(** The answers of the outside world. *)
Record Outside : Type := mkOutside {
  (** the [n]-th reading of the clock ([Date.now()], [new Date()]) *)
  clock : nat → Z;
  (** [getOctokit()] of [lib/oauth]: a client, or what it throws *)
  getOctokit_throws : option thrown;
  listForAuthenticatedUser : thrown + list Api.repo;
  listForUser : string → thrown + list Api.repo;
  (** the [n]-th call of [users.getAuthenticated]: the login, or a failure *)
  getAuthenticated : nat → thrown + string
}.

Record World : Type := mkWorld {
  storage : gmap string string;   (** [LocalStorage] *)
  component : Component;
  ticks : nat;                    (** clock readings so far *)
  asked : nat;                    (** calls of [getAuthenticated] so far *)
  log : list Event                (** oldest first *)
}.

(** A computation: it ends with a value or with a [throw]. *)
Definition M (T : Type) : Type := World → (thrown + T) * World.

Global Instance M_ret : MRet M := λ T (v : T) w, (inr v, w).

Global Instance M_bind : MBind M := λ T U (f : T → M U) (m : M T) w,
  match m w with
  | (inr v, w') => f v w'
  | (inl e, w') => (inl e, w')
  end.

(** Nothing to do, as in an [if] without [else]. *)
Definition skip : M unit := mret ().

Definition throw {T : Type} (e : thrown) : M T := λ w, (inl e, w).

(** [try { body } catch (err) { handler }] *)
Definition try_catch {T : Type} (body : M T) (handler : thrown → M T) : M T :=
  λ w,
  match body w with
  | (inl e, w') => handler e w'
  | (inr v, w') => (inr v, w')
  end.

(** [try { body } finally { finalizer }] *)
Definition try_finally {T : Type} (body : M T) (finalizer : M unit) : M T :=
  λ w,
  match body w with
  | (r, w') =>
      match finalizer w' with
      | (inl e, w'') => (inl e, w'')
      | (inr _, w'') => (r, w'')
      end
  end.

Fixpoint mapM {T U : Type} (f : T → M U) (l : list T) : M (list U) :=
  match l with
  | [] => mret []
  | x :: l' => y ← f x; ys ← mapM f l'; mret (y :: ys)
  end.

Definition emit (e : Event) : M unit := λ w,
  (inr tt,
   {| storage := storage w; component := component w; ticks := ticks w;
      asked := asked w; log := log w ++ [e] |}).

(** The component state the running closure sees. *)
Definition getState : M Component := λ w, (inr (component w), w).

(** A state setter: the component changes and the change is shown. *)
Definition setState (f : Component → Component) : M unit := λ w,
  (inr tt,
   {| storage := storage w; component := f (component w); ticks := ticks w;
      asked := asked w; log := log w ++ [Shown (f (component w))] |}).

Definition setRepositories (v : list Repository) : M unit :=
  setState (λ c,
    {| repositories := v; sortedRepositories := sortedRepositories c;
       isLoading := isLoading c; error := error c;
       currentUser := currentUser c; accessTimes := accessTimes c |}).

Definition setSortedRepositories (v : list Repository) : M unit :=
  setState (λ c,
    {| repositories := repositories c; sortedRepositories := v;
       isLoading := isLoading c; error := error c;
       currentUser := currentUser c; accessTimes := accessTimes c |}).

Definition setIsLoading (v : bool) : M unit :=
  setState (λ c,
    {| repositories := repositories c;
       sortedRepositories := sortedRepositories c;
       isLoading := v; error := error c;
       currentUser := currentUser c; accessTimes := accessTimes c |}).

Definition setError (v : option string) : M unit :=
  setState (λ c,
    {| repositories := repositories c;
       sortedRepositories := sortedRepositories c;
       isLoading := isLoading c; error := v;
       currentUser := currentUser c; accessTimes := accessTimes c |}).

Definition setCurrentUser (v : string) : M unit :=
  setState (λ c,
    {| repositories := repositories c;
       sortedRepositories := sortedRepositories c;
       isLoading := isLoading c; error := error c;
       currentUser := v; accessTimes := accessTimes c |}).

Definition setAccessTimes (v : RepositoryAccessTimes) : M unit :=
  setState (λ c,
    {| repositories := repositories c;
       sortedRepositories := sortedRepositories c;
       isLoading := isLoading c; error := error c;
       currentUser := currentUser c; accessTimes := v |}).

(** [showToast({ style: Failure, title, message })] *)
Definition showToast (title message : string) : M unit :=
  emit (Toast title message).

(** [LocalStorage.getItem] *)
Definition LocalStorage_getItem (key : string) : M (option string) := λ w,
  (inr (storage w !! key), w).

(** [LocalStorage.setItem] *)
Definition LocalStorage_setItem (key value : string) : M unit := λ w,
  (inr tt,
   {| storage := <[key := value]> (storage w); component := component w;
      ticks := ticks w; asked := asked w;
      log := log w ++ [Stored key value] |}).

Section Program.
Context `{Engine}.
Context `{Json RepositoryAccessTimes} `{Json (list Repository)}.
Variable env : Outside.

(** [Date.now()], [new Date().getTime()] *)
Definition Date_now : M Z := λ w,
  (inr (clock env (ticks w)),
   {| storage := storage w; component := component w; ticks := S (ticks w);
      asked := asked w; log := log w |}).

(** [getOctokit()] *)
Definition getOctokit : M unit :=
  match getOctokit_throws env with
  | Some e => throw e
  | None => skip
  end.

(** [octokit.rest.users.getAuthenticated()], then [user.login] *)
Definition octokit_users_getAuthenticated : M string := λ w,
  let w' :=
    {| storage := storage w; component := component w; ticks := ticks w;
       asked := S (asked w); log := log w ++ [Network UsersGetAuthenticated] |} in
  match getAuthenticated env (asked w) with
  | inl e => (inl e, w')
  | inr login => (inr login, w')
  end.

(** [octokit.rest.repos.listForAuthenticatedUser(...)] *)
Definition octokit_repos_listForAuthenticatedUser : M (list Api.repo) :=
  emit (Network ReposListForAuthenticatedUser);;
  match listForAuthenticatedUser env with
  | inl e => throw e
  | inr repos => mret repos
  end.

(** [octokit.rest.repos.listForUser({ username, ... })] *)
Definition octokit_repos_listForUser (username : string) : M (list Api.repo) :=
  emit (Network (ReposListForUser username));;
  match listForUser env username with
  | inl e => throw e
  | inr repos => mret repos
  end.

(** *** [services/repositories.ts]: the fetch *)

Definition fetchRepositories : M (list Repository) :=
  getOctokit;;
  try_catch
    (repos ← octokit_repos_listForAuthenticatedUser;
     repositories ← mapM (λ repo, now ← Date_now; mret (toRepository now repo)) repos;
     mret (Array_sort compareByUsageScore repositories))
    (λ error, throw (handleGitHubError error)).

Definition fetchRepositoriesByOwner (owner : string) : M (list Repository) :=
  getOctokit;;
  try_catch
    (repos ← octokit_repos_listForUser owner;
     repositories ← mapM (λ repo, now ← Date_now; mret (toRepository now repo)) repos;
     mret (Array_sort compareByUsageScore repositories))
    (λ error, throw (handleGitHubError error)).

(** *** [github-repositories.tsx]: the ledger and the cache *)

Definition STORAGE_KEY : string := "repository-access-times".
Definition CACHE_KEY : string := "repositories-cache".
Definition CACHE_TIMESTAMP_KEY : string := "repositories-cache-timestamp".
(** 5 minutes in milliseconds *)
Definition CACHE_DURATION : Z := 5 * 60 * 1000.

(** [JSON.parse(text)] *)
Definition parse {T : Type} `{Json T} (text : string) : M T :=
  match JSON_parse text with
  | Some v => mret v
  | None => throw (JsError "Unexpected token in JSON")
  end.

Definition getAccessTimes : M RepositoryAccessTimes :=
  stored ← LocalStorage_getItem STORAGE_KEY;
  match stored with
  | Some text => if truthy stored then parse text else mret ∅
  | None => mret ∅
  end.

Definition updateAccessTime (repoId : string) : M unit :=
  accessTimes ← getAccessTimes;
  now ← Date_now;
  let accessTimes := <[repoId := now]> accessTimes in
  LocalStorage_setItem STORAGE_KEY (JSON_stringify accessTimes).

(** [None] is [null]. *)
Definition getCachedRepositories : M (option (list Repository)) :=
  cached ← LocalStorage_getItem CACHE_KEY;
  match cached with
  | Some text =>
      if truthy cached then repos ← parse text; mret (Some repos)
      else mret None
  | None => mret None
  end.

Definition setCachedRepositories (repos : list Repository) : M unit :=
  LocalStorage_setItem CACHE_KEY (JSON_stringify repos);;
  now ← Date_now;
  LocalStorage_setItem CACHE_TIMESTAMP_KEY (Number_toString now).

Definition isCacheValid : M bool :=
  timestamp ← LocalStorage_getItem CACHE_TIMESTAMP_KEY;
  match timestamp with
  | Some text =>
      if truthy timestamp then
        now ← Date_now;
        match parseInt text with
        | Some fetchedAt =>
            let age := now - fetchedAt in
            mret (age <? CACHE_DURATION)
        | None => mret false   (* [NaN < CACHE_DURATION] *)
        end
      else mret false
  | None => mret false
  end.

(** *** [github-repositories.tsx]: the load flow of the command *)

Definition loadRepositories : M unit :=
  try_finally
    (try_catch
       (times ← getAccessTimes;
        (* Load cached data first if available *)
        cachedRepos ← getCachedRepositories;
        (* [cachedRepos && cachedRepos.length > 0]; [first] is
           [cachedRepos[0]] *)
        match cachedRepos with
        | Some (first :: rest) =>
            let cachedRepos := first :: rest in
            setRepositories cachedRepos;;
            setAccessTimes times;;
            setSortedRepositories (sortRepositoriesByAccess cachedRepos times);;
            (* Get current user from cache *)
            (* [cachedRepos.length > 0 && cachedRepos[0].owner] *)
            (if truthy (Some (owner first)) then
               try_catch
                 (getOctokit;;
                  user ← octokit_users_getAuthenticated;
                  setCurrentUser user)
                 (λ _, skip)
             else skip);;
            (* If cache is still valid, just stop loading indicator *)
            cacheValid ← isCacheValid;
            if (cacheValid : bool) then setIsLoading false else skip
        | _ => skip
        end;;
        (* Fetch fresh data in the background *)
        cacheValid ← isCacheValid;
        (* [!cacheValid || !cachedRepos] *)
        if negb (cacheValid : bool) || negb (is_Some_b cachedRepos) then
          setError None;;
          repos ← fetchRepositories;
          (* Cache the fresh data *)
          setCachedRepositories repos;;
          setRepositories repos;;
          setAccessTimes times;;
          setSortedRepositories (sortRepositoriesByAccess repos times);;
          (* Get current user for categorization *)
          if (0 <? length repos)%nat then
            getOctokit;;
            user ← octokit_users_getAuthenticated;
            setCurrentUser user
          else skip
        else skip)
       (λ err,
          let errorMessage :=
            match err with
            | JsError message => message
            | JsOther => "Failed to load repositories"
            end in
          setError (Some errorMessage);;
          showToast "Error loading repositories" errorMessage))
    (setIsLoading false).

(** [handleRepositoryClick], the handler of the open and copy actions.
    [repositories] is the state the handler closes over; nothing else
    updates it while the handler runs. *)
Definition handleRepositoryClick (repoId : string) : M unit :=
  updateAccessTime repoId;;
  updatedTimes ← getAccessTimes;
  setAccessTimes updatedTimes;;
  c ← getState;
  setSortedRepositories (sortRepositoriesByAccess (repositories c) updatedTimes).
End Program.

(** *** Reading the log *)

(** The component state on screen after the events [l], starting from [c]. *)
Fixpoint shown_after (c : Component) (l : list Event) : Component :=
  match l with
  | [] => c
  | Shown c' :: l' => shown_after c' l'
  | _ :: l' => shown_after c l'
  end.

(** The component state on screen at the moment the first request that
    satisfies [which] is sent; [None] when no such request is sent. *)
Fixpoint shown_at_request (which : Request → bool) (c : Component)
    (l : list Event) : option Component :=
  match l with
  | [] => None
  | Shown c' :: l' => shown_at_request which c' l'
  | Network r :: l' =>
      if which r then Some c else shown_at_request which c l'
  | _ :: l' => shown_at_request which c l'
  end.

Definition any_request (r : Request) : bool := true.

Definition is_fetch (r : Request) : bool :=
  match r with
  | ReposListForAuthenticatedUser => true
  | _ => false
  end.

(** The instant recorded with the cache entry, when the store holds one. *)
Definition fetchedAt (ls : gmap string string) : option Z :=
  match ls !! CACHE_TIMESTAMP_KEY with
  | Some text => if truthy (Some text) then parseInt text else None
  | None => None
  end.

(** A world whose store is [ls], at the moment the component is mounted. *)
Definition on_mount (ls : gmap string string) : World :=
  {| storage := ls; component := mounted; ticks := 0; asked := 0; log := [] |}.

(** *** [github-repositories.tsx]: what the component renders *)

(** An entry of [List.Item.Accessory[]]: the owner tag, the star count, the
    lock. *)
Inductive Accessory : Type :=
  | OwnerTag (value tooltip : string)
  | StarCount (text tooltip : string)
  | PrivateLock (tooltip : string).

(** [getRepositoryAccessory]; [currentUser] is the state it closes over. *)
Definition getRepositoryAccessory (currentUser : string) (repo : Repository)
    : list Accessory :=
  let accessories := [] in
  (* Show organization badge if not owned by current user *)
  let accessories :=
    if truthy (Some currentUser) && negb (String.eqb (owner repo) currentUser)
    then accessories ++
         [OwnerTag (owner repo) ("Organization: " +:+ owner repo)]
    else accessories in
  let accessories :=
    if 0 <? stars repo
    then accessories ++
         [StarCount (Number_toString (stars repo))
                    (Number_toString (stars repo) +:+ " stars")]
    else accessories in
  let accessories :=
    if isPrivate repo
    then accessories ++ [PrivateLock "Private repository"]
    else accessories in
  accessories.

(** A [List.Item]; each of its three actions (open in browser, copy URL,
    copy name) calls [handleRepositoryClick(key)]. *)
Record Item : Type := mkItem {
  key : string;
  title : string;
  subtitle : string;
  accessories : list Accessory;
  target : string
}.

Inductive Body : Type :=
  | EmptyView (view_title view_description : string)
  | Items (items : list Item).

(** The [List] element. *)
Record View : Type := mkView {
  loading : bool;
  body : Body
}.

(** The JSX returned by [MyRepositoriesCommand]. *)
Definition render (c : Component) : View :=
  {| loading := isLoading c;
     body :=
       if truthy (error c) then
         EmptyView "Error loading repositories" (or_string (error c) "")
       else if (length (sortedRepositories c) =? 0)%nat && negb (isLoading c) then
         EmptyView "No repositories found" "You don't have any repositories yet"
       else
         Items
           ((λ repo,
               {| key := id repo;
                  title := fullName repo;
                  subtitle := or_string (description repo) "";
                  accessories := getRepositoryAccessory (currentUser c) repo;
                  target := url repo |})
              <$> sortedRepositories c) |}.

(** *** [github-repositories.tsx], earlier revision: the load without cache *)

Module Uncached.
Section Program.
Context `{Engine}.
Context `{Json RepositoryAccessTimes}.
Variable env : Outside.

Definition loadRepositories : M unit :=
  try_finally
    (try_catch
       (setIsLoading true;;
        setError None;;
        repos ← fetchRepositories env;
        times ← getAccessTimes;
        setRepositories repos;;
        setAccessTimes times;;
        setSortedRepositories (sortRepositoriesByAccess repos times);;
        (* Get current user for categorization *)
        if (0 <? length repos)%nat then
          getOctokit env;;
          user ← octokit_users_getAuthenticated env;
          setCurrentUser user
        else skip)
       (λ err,
          let errorMessage :=
            match err with
            | JsError message => message
            | JsOther => "Failed to load repositories"
            end in
          setError (Some errorMessage);;
          showToast "Error loading repositories" errorMessage))
    (setIsLoading false).
End Program.
End Uncached.

(** *** Reading text and logs *)

(** [message] has [pattern] somewhere inside. *)
Definition contains (message pattern : string) : Prop :=
  ∃ pre post : string, message = pre +:+ pattern +:+ post.

(** The requests among the events, in order. *)
Definition requests (l : list Event) : list Request :=
  omap (λ e, match e with Network r => Some r | _ => None end) l.

(** The writes to the store among the events, in order. *)
Definition writes (l : list Event) : list (string * string) :=
  omap (λ e, match e with Stored k v => Some (k, v) | _ => None end) l.

(** ** Reference instances, to run the model on examples *)

Module Reference.

(** *** An engine *)

Definition digit_value (c : ascii) : Z := Z.of_nat (nat_of_ascii c) - 48.

(** Days from 1970-01-01 to the given civil date. *)
Definition days_from_civil (y m d : Z) : Z :=
  let y := if m <=? 2 then y - 1 else y in
  let era := y / 400 in
  let yoe := y - era * 400 in
  let doy := (153 * (if 2 <? m then m - 3 else m + 9) + 2) / 5 + d - 1 in
  let doe := yoe * 365 + yoe / 4 - yoe / 100 + doy in
  era * 146097 + doe - 719468.

(** Timestamps as GitHub writes them, [YYYY-MM-DDTHH:MM:SSZ]; any other
    text reads as the epoch. *)
Definition iso8601_getTime (s : string) : Z :=
  match list_ascii_of_string s with
  | [y1; y2; y3; y4; _; m1; m2; _; d1; d2; _; h1; h2; _; n1; n2; _; s1; s2; _] =>
      let v := digit_value in
      let year := v y1 * 1000 + v y2 * 100 + v y3 * 10 + v y4 in
      let days := days_from_civil year (v m1 * 10 + v m2) (v d1 * 10 + v d2) in
      (((days * 24 + (v h1 * 10 + v h2)) * 60 + (v n1 * 10 + v n2)) * 60
       + (v s1 * 10 + v s2)) * 1000
  | _ => 0
  end.

(** The exponential series up to the cubic term. *)
Definition exp_series (x : Q) : Q :=
  (1 + x + x * x / 2 + x * x * x / 6)%Q.

(** Rounding down to a multiple of 2^-20. *)
Definition round_fixed (x : Q) : Q :=
  (inject_Z (Qfloor (x * inject_Z (2 ^ 20))) / inject_Z (2 ^ 20))%Q.

Definition engine : Engine :=
  {| Date_getTime := iso8601_getTime;
     Math_exp := exp_series;
     fl := round_fixed |}.

(** *** A serialisation for any countable type *)

Fixpoint text_of_pos (p : positive) : string :=
  match p with
  | xH => EmptyString
  | xO p' => String "0"%char (text_of_pos p')
  | xI p' => String "1"%char (text_of_pos p')
  end.

Fixpoint pos_of_text (s : string) : positive :=
  match s with
  | EmptyString => xH
  | String c r =>
      if Ascii.eqb c "0"%char then xO (pos_of_text r) else xI (pos_of_text r)
  end.

Definition json (T : Type) `{Countable T} : Json T :=
  {| JSON_stringify := λ v, String "#"%char (text_of_pos (encode v));
     JSON_parse := λ s,
       match s with
       | String _ r => decode (pos_of_text r)
       | EmptyString => None
       end |}.

Global Instance Q_eq_dec : EqDecision Q.
Proof. solve_decision. Defined.

Global Instance Q_countable : Countable Q :=
  inj_countable' (λ q, (Qnum q, Qden q)) (λ p, Qmake p.1 p.2)
    (λ q, match q with Qmake _ _ => eq_refl end).

Global Instance Repository_eq_dec : EqDecision Repository.
Proof. solve_decision. Defined.

Global Instance Repository_countable : Countable Repository :=
  inj_countable'
    (λ r, (id r, name r, owner r, fullName r, description r, url r,
           stars r, language r, updatedAt r, pushedAt r, isPrivate r,
           usageScore r))
    (λ t,
       let '(i, n, o, f, d, u, s, l, ua, pa, p, sc) := t in
       mkRepository i n o f d u s l ua pa p sc)
    (λ r, match r with mkRepository _ _ _ _ _ _ _ _ _ _ _ _ => eq_refl end).

Definition json_times : Json RepositoryAccessTimes := json RepositoryAccessTimes.
Definition json_repos : Json (list Repository) := json (list Repository).

(** *** Sample data *)

Definition repository (i : string) (o : string) (score : Q) : Repository :=
  {| id := i; name := "repo-" +:+ i; owner := o;
     fullName := o +:+ "/repo-" +:+ i; description := None;
     url := "https://github.com/" +:+ o +:+ "/repo-" +:+ i; stars := 0;
     language := None; updatedAt := "2024-01-01T00:00:00Z";
     pushedAt := "2024-01-01T00:00:00Z"; isPrivate := false;
     usageScore := score |}.

Definition api_repo (i : Z) (count : option Z) (updated : string) : Api.repo :=
  {| Api.id := i; Api.name := "r"; Api.owner_login := Some "octocat";
     Api.full_name := "octocat/r"; Api.description := None;
     Api.html_url := "https://github.com/octocat/r";
     Api.stargazers_count := count; Api.language := None;
     Api.updated_at := updated; Api.pushed_at := None;
     Api.private := false |}.

(** A world outside in which GitHub answers and the clock stands still. *)
Definition online (now : Z) (repos : list Api.repo) : Outside :=
  {| clock := λ _, now; getOctokit_throws := None;
     listForAuthenticatedUser := inr repos;
     listForUser := λ _, inr repos;
     getAuthenticated := λ _, inr "octocat" |}.

(** A world outside in which GitHub cannot be reached. *)
Definition offline (now : Z) : Outside :=
  {| clock := λ _, now; getOctokit_throws := None;
     listForAuthenticatedUser := inl (JsError "getaddrinfo ENOTFOUND api.github.com");
     listForUser := λ _, inl (JsError "getaddrinfo ENOTFOUND api.github.com");
     getAuthenticated := λ _, inl (JsError "getaddrinfo ENOTFOUND api.github.com") |}.

(** Two cached repositories, the second of which was opened once, and a
    store that holds them with a fetch timestamp. *)
Definition cached : list Repository :=
  [repository "1" "octocat" 1000; repository "2" "octocat" 0].

Definition times : RepositoryAccessTimes := {["2" := 100]}.

Definition store (fetched : Z) : gmap string string :=
  <[STORAGE_KEY := @JSON_stringify _ json_times times]>
    (<[CACHE_KEY := @JSON_stringify _ json_repos cached]>
       (<[CACHE_TIMESTAMP_KEY := Number_toString fetched]> ∅)).

End Reference.

(* ===================================================================== *)
(** * Part II: properties                                                *)
(* ===================================================================== *)

(** ** The sort *)

Section ArraySortFacts.
Context {A : Type} (compareFn : A → A → Q).

Local Abbreviation sort := (JS.Array_sort compareFn).
Local Abbreviation insert := (JS.sort_insert compareFn).
Local Abbreviation may_precede := (JS.may_precede compareFn).

Lemma sort_insert_perm x l : insert x l ≡ₚ x :: l.
Proof.
  induction l as [|y l IH]; simpl; [done|].
  destruct (Qle_bool _ _); [done|].
  rewrite IH. apply Permutation_swap.
Qed.

Lemma Array_sort_perm l : sort l ≡ₚ l.
Proof.
  induction l as [|x l IH]; simpl; [done|].
  by rewrite sort_insert_perm, IH.
Qed.

Lemma Array_sort_length l : length (sort l) = length l.
Proof. by rewrite Array_sort_perm. Qed.

(** A consistent comparator: the sign flips with the arguments and
    "may precede" is transitive. *)
Hypothesis compareFn_flip :
  ∀ x y, (0 < compareFn x y)%Q → (compareFn y x <= 0)%Q.
Hypothesis compareFn_trans :
  ∀ x y z, may_precede x y → may_precede y z → may_precede x z.

Lemma sort_insert_sorted x l :
  StronglySorted may_precede l → StronglySorted may_precede (insert x l).
Proof.
  induction 1 as [|y l Hl IH Hy]; simpl.
  - repeat constructor.
  - destruct (Qle_bool (compareFn x y) 0) eqn:E.
    + apply Qle_bool_iff in E.
      constructor; [by constructor|].
      constructor; [done|].
      eapply Forall_impl; [exact Hy|]. intros z Hz. by eapply compareFn_trans.
    + assert (0 < compareFn x y)%Q as Hlt.
      { apply Qnot_le_lt. intros Hle. apply Qle_bool_iff in Hle. congruence. }
      constructor; [done|].
      rewrite sort_insert_perm. constructor; [|done].
      by apply compareFn_flip.
Qed.

Lemma Array_sort_sorted l : StronglySorted may_precede (sort l).
Proof.
  induction l as [|x l IH]; simpl; [constructor|].
  by apply sort_insert_sorted.
Qed.
End ArraySortFacts.

(** Stability: a class of elements that the comparator does not tell apart
    keeps its arrangement. *)
Section ArraySortStable.
Context {A : Type} (compareFn : A → A → Q).
Context (P : A → Prop) `{!∀ x, Decision (P x)}.
Hypothesis P_class : ∀ x y, P x → P y → (compareFn x y <= 0)%Q.

Lemma sort_insert_filter x l :
  filter P (JS.sort_insert compareFn x l) = filter P (x :: l).
Proof.
  induction l as [|y l IH]; simpl; [done|].
  destruct (Qle_bool (compareFn x y) 0) eqn:E; [done|].
  rewrite (filter_cons _ y), IH, !filter_cons.
  destruct (decide (P y)) as [Hy|Hy]; destruct (decide (P x)) as [Hx|Hx];
    try done.
  apply (P_class x y) in Hy; [|done]. apply Qle_bool_iff in Hy. congruence.
Qed.

Lemma Array_sort_filter l :
  filter P (JS.Array_sort compareFn l) = filter P l.
Proof.
  induction l as [|x l IH]; simpl; [done|].
  by rewrite sort_insert_filter, !filter_cons, IH.
Qed.
End ArraySortStable.

(** For a consistent comparator there is one arrangement that is sorted,
    a rearrangement of the input and stable, so any implementation of
    [sort] that meets ECMAScript returns what [Array_sort] returns. *)
Section ArraySortUnique.
Context {A : Type} (compareFn : A → A → Q).
Hypothesis compareFn_flip :
  ∀ x y, (0 < compareFn x y)%Q → (compareFn y x <= 0)%Q.
Hypothesis compareFn_trans :
  ∀ x y z, JS.may_precede compareFn x y → JS.may_precede compareFn y z →
           JS.may_precede compareFn x z.

Local Abbreviation le := (JS.may_precede compareFn).
Local Abbreviation eqv := (JS.same_rank compareFn).

Lemma may_precede_refl x : le x x.
Proof.
  unfold JS.may_precede.
  destruct (Qlt_le_dec 0 (compareFn x x)) as [H|H]; [by apply compareFn_flip|done].
Qed.

Lemma Array_sort_stable x l :
  filter (eqv x) (JS.Array_sort compareFn l) = filter (eqv x) l.
Proof.
  apply Array_sort_filter. intros a b [_ Ha] [Hb _]. by eapply compareFn_trans.
Qed.

Lemma sorted_stable_unique (l1 l2 : list A) :
  StronglySorted le l1 → StronglySorted le l2 → l1 ≡ₚ l2 →
  (∀ x, filter (eqv x) l1 = filter (eqv x) l2) →
  l1 = l2.
Proof.
  revert l2. induction l1 as [|a l1 IH]; intros l2 H1 H2 Hp Hf.
  - by apply Permutation_nil_l in Hp.
  - destruct l2 as [|b l2]; [by apply Permutation_nil_r in Hp|].
    apply StronglySorted_inv in H1 as [H1 Ha].
    apply StronglySorted_inv in H2 as [H2 Hb].
    assert (eqv a b) as Hab.
    { split.
      - assert (b ∈ a :: l1) as Hin by (rewrite Hp; left).
        apply elem_of_cons in Hin as [->|Hin]; [apply may_precede_refl|].
        rewrite Forall_forall in Ha. by apply Ha.
      - assert (a ∈ b :: l2) as Hin by (rewrite <- Hp; left).
        apply elem_of_cons in Hin as [->|Hin]; [apply may_precede_refl|].
        rewrite Forall_forall in Hb. by apply Hb. }
    assert (a = b) as <-.
    { pose proof (Hf a) as Hfa. rewrite !filter_cons in Hfa.
      destruct (decide (eqv a a)) as [_|[]];
        [|split; apply may_precede_refl].
      destruct (decide (eqv a b)) as [_|[]]; [|done].
      by injection Hfa. }
    f_equal. apply IH; [done..|by eapply Permutation_cons_inv|].
    intros x. specialize (Hf x). rewrite !filter_cons in Hf.
    destruct (decide (eqv x a)); [by injection Hf|done].
Qed.

Lemma Array_sort_unique (l out : list A) :
  StronglySorted le out → out ≡ₚ l →
  (∀ x, filter (eqv x) out = filter (eqv x) l) →
  out = JS.Array_sort compareFn l.
Proof.
  intros Hs Hp Hf. apply sorted_stable_unique; [done| | |].
  - by apply Array_sort_sorted.
  - by rewrite Array_sort_perm.
  - intros x. by rewrite Array_sort_stable.
Qed.
End ArraySortUnique.

(** ** Facts on lists used below *)

Lemma StronglySorted_lookup {A} (R : relation A) (l : list A) i j x y :
  StronglySorted R l → (i < j)%nat → l !! i = Some x → l !! j = Some y → R x y.
Proof.
  intros Hl. revert i j. induction Hl as [|a l Hl IH Ha]; intros i j Hij Hi Hj.
  - by rewrite lookup_nil in Hi.
  - destruct j as [|j]; [lia|]. simpl in Hj. destruct i as [|i]; simpl in Hi.
    + injection Hi as ->. rewrite Forall_forall in Ha. apply Ha.
      by eapply list_elem_of_lookup_2.
    + eapply IH; [|done..]. lia.
Qed.

Lemma sublist_pair_lookup {A} (x y : A) (l : list A) :
  [x; y] `sublist_of` l →
  ∃ i j : nat, (i < j)%nat ∧ l !! i = Some x ∧ l !! j = Some y.
Proof.
  induction l as [|a l IH]; intros Hs; [by inv Hs|].
  inv Hs.
  - match goal with H : [y] `sublist_of` l |- _ =>
      apply sublist_cons_l in H as (k1 & k2 & -> & _) end.
    exists 0%nat, (S (length k1)). split; [lia|]. split; [done|].
    simpl. by rewrite list_lookup_middle.
  - destruct IH as (i & j & Hij & Hi & Hj); [done|].
    exists (S i), (S j). split; [lia|]. done.
Qed.

Lemma sublist_filter_mono {A} (P : A → Prop) `{!∀ x, Decision (P x)}
    (l k : list A) :
  l `sublist_of` k → filter P l `sublist_of` filter P k.
Proof.
  induction 1 as [|x l k _ IH|x l k _ IH]; [done|..]; rewrite ?filter_cons.
  - destruct (decide (P x)); [by apply sublist_skip|done].
  - destruct (decide (P x)); [by apply sublist_cons|done].
Qed.

Lemma lookup_pair_sublist {A} (x y : A) (l : list A) i j :
  (i < j)%nat → l !! i = Some x → l !! j = Some y → [x; y] `sublist_of` l.
Proof.
  revert i j. induction l as [|a l IH]; intros i j Hij Hi Hj.
  - by rewrite lookup_nil in Hi.
  - destruct j as [|j]; [lia|]. simpl in Hj. destruct i as [|i]; simpl in Hi.
    + injection Hi as ->. apply sublist_skip.
      apply list_elem_of_lookup_2, list_elem_of_split in Hj as (k1 & k2 & ->).
      apply sublist_inserts_l. apply sublist_skip, sublist_nil_l.
    + apply sublist_cons. eapply (IH i j); [lia|done..].
Qed.

(** ** The comparator of [sortRepositoriesByAccess] *)

Section CompareByAccess.
Variable accessTimes : RepositoryAccessTimes.

Local Abbreviation time := (accessTime accessTimes).
Local Abbreviation cmp := (compareByAccess accessTimes).

Lemma compareByAccess_may_precede a b :
  JS.may_precede cmp a b ↔
  time b < time a ∨ (time a = time b ∧ (usageScore b <= usageScore a)%Q).
Proof.
  unfold JS.may_precede, compareByAccess.
  destruct (Z.eqb_spec (time a) (time b)) as [E|E]; simpl.
  - split; [intros H; right; split; [done|lra] | intros [H|[_ H]]; [lia|lra]].
  - change 0%Q with (inject_Z 0). rewrite <- Zle_Qle.
    split; [intros H; left; lia | intros [H|[H _]]; [lia|done]].
Qed.

Lemma compareByAccess_positive a b :
  (0 < cmp a b)%Q ↔
  time a < time b ∨ (time a = time b ∧ (usageScore a < usageScore b)%Q).
Proof.
  unfold compareByAccess.
  destruct (Z.eqb_spec (time a) (time b)) as [E|E]; simpl.
  - split; [intros H; right; split; [done|lra] | intros [H|[_ H]]; [lia|lra]].
  - change 0%Q with (inject_Z 0). rewrite <- Zlt_Qlt.
    split; [intros H; left; lia | intros [H|[H _]]; [lia|done]].
Qed.

Lemma compareByAccess_flip a b : (0 < cmp a b)%Q → (cmp b a <= 0)%Q.
Proof.
  rewrite compareByAccess_positive.
  intros H. apply compareByAccess_may_precede.
  destruct H as [H|[H1 H2]]; [by left|right]. split; [done|lra].
Qed.

Lemma compareByAccess_trans a b c :
  JS.may_precede cmp a b → JS.may_precede cmp b c → JS.may_precede cmp a c.
Proof.
  rewrite !compareByAccess_may_precede.
  intros [H1|[H1 H1']] [H2|[H2 H2']]; try (left; lia).
  right. split; [lia|lra].
Qed.

Lemma sortRepositoriesByAccess_sorted repos :
  StronglySorted (JS.may_precede cmp) (sortRepositoriesByAccess repos accessTimes).
Proof.
  apply Array_sort_sorted;
    [exact compareByAccess_flip | exact compareByAccess_trans].
Qed.

(** Whatever has to come first does come first, at every occurrence. *)
Lemma sortRepositoriesByAccess_precedes repos a b :
  a ∈ repos → b ∈ repos → (0 < cmp b a)%Q →
  precedes a b (sortRepositoriesByAccess repos accessTimes).
Proof.
  intros Ha Hb Hlt.
  set (out := sortRepositoriesByAccess repos accessTimes).
  assert (∀ i j : nat, out !! i = Some a → out !! j = Some b → (i < j)%nat) as Hall.
  { intros i j Hi Hj.
    destruct (lt_eq_lt_dec i j) as [[Hij|Hij]|Hij]; [done| |].
    - subst j. rewrite Hi in Hj. injection Hj as ->.
      apply compareByAccess_positive in Hlt. destruct Hlt as [?|[_ ?]]; [lia|lra].
    - pose proof (StronglySorted_lookup _ _ _ _ _ _
        (sortRepositoriesByAccess_sorted repos) Hij Hj Hi) as Hba.
      unfold JS.may_precede in Hba. lra. }
  split; [|done].
  assert (a ∈ out) as Ha' by (unfold out, sortRepositoriesByAccess; by rewrite Array_sort_perm).
  assert (b ∈ out) as Hb' by (unfold out, sortRepositoriesByAccess; by rewrite Array_sort_perm).
  apply list_elem_of_lookup in Ha' as [i Hi].
  apply list_elem_of_lookup in Hb' as [j Hj].
  exists i, j. eauto.
Qed.
End CompareByAccess.

(** ** Ranking *)

(** C1.  A repository whose last access is strictly later than another's
    (no entry in the mapping counting as 0) stands in front of it in the
    output of [sortRepositoriesByAccess], whatever the usage scores. *)
Theorem sortRepositoriesByAccess_recent_first
    (repos : list Repository) (accessTimes : RepositoryAccessTimes)
    (A B : Repository) :
  A ∈ repos → B ∈ repos →
  accessTime accessTimes B < accessTime accessTimes A →
  precedes A B (sortRepositoriesByAccess repos accessTimes).
Proof.
  intros HA HB Hlt. apply sortRepositoriesByAccess_precedes; [done..|].
  apply compareByAccess_positive. by left.
Qed.

(** C5.  With equal last-access timestamps (both absent included) the
    higher usage score goes first; repositories that tie on the score as
    well keep the arrangement they had in the input. *)
Theorem sortRepositoriesByAccess_score_then_stable
    (repos : list Repository) (accessTimes : RepositoryAccessTimes)
    (A B : Repository) :
  accessTime accessTimes A = accessTime accessTimes B →
  let out := sortRepositoriesByAccess repos accessTimes in
  (A ∈ repos → B ∈ repos → (usageScore B < usageScore A)%Q →
   precedes A B out) ∧
  ((usageScore A == usageScore B)%Q →
   filter (tied accessTimes A) out = filter (tied accessTimes A) repos ∧
   ∀ i j : nat, (i < j)%nat → repos !! i = Some A → repos !! j = Some B →
     ∃ i' j' : nat, (i' < j')%nat ∧ out !! i' = Some A ∧ out !! j' = Some B).
Proof.
  intros Htime out. split.
  - intros HA HB Hlt. apply sortRepositoriesByAccess_precedes; [done..|].
    apply compareByAccess_positive. right. by split.
  - intros Hscore.
    assert (filter (tied accessTimes A) out = filter (tied accessTimes A) repos)
      as Hfilter.
    { apply Array_sort_filter. intros x y [Hx1 Hx2] [Hy1 Hy2].
      apply compareByAccess_may_precede. right. split; [lia|].
      rewrite <- Hx2, <- Hy2. lra. }
    split; [done|].
    intros i j Hij Hi Hj.
    apply sublist_pair_lookup.
    transitivity (filter (tied accessTimes A) out); [|apply sublist_filter].
    rewrite Hfilter.
    assert ([A; B] = filter (tied accessTimes A) [A; B]) as ->.
    { rewrite !filter_cons, filter_nil.
      destruct (decide (tied accessTimes A A)) as [|[]]; [|by split].
      destruct (decide (tied accessTimes A B)) as [|[]]; [done|by split]. }
    apply sublist_filter_mono. by eapply lookup_pair_sublist.
Qed.

(** C6.  The output of [sortRepositoriesByAccess] is a rearrangement of
    its input: same length, and the same ids the same number of times. *)
Theorem sortRepositoriesByAccess_permutation
    (repos : list Repository) (accessTimes : RepositoryAccessTimes) :
  let out := sortRepositoriesByAccess repos accessTimes in
  out ≡ₚ repos ∧
  length out = length repos ∧
  id <$> out ≡ₚ id <$> repos.
Proof.
  intros out.
  assert (out ≡ₚ repos) as H by apply Array_sort_perm.
  split; [done|]. split; [by rewrite H|by rewrite H].
Qed.

Lemma sortRepositoriesByAccess_recent_first_witness :
  let A := Reference.repository "A" "octocat" 0 in
  let B := Reference.repository "B" "octocat" 1000 in
  precedes A B (sortRepositoriesByAccess [B; A] {["A" := 100]}).
Proof.
  intros A B.
  apply sortRepositoriesByAccess_recent_first;
    [apply list_elem_of_In; simpl; auto..|vm_compute; reflexivity].
Defined.

Lemma sortRepositoriesByAccess_score_then_stable_witness :
  let A := Reference.repository "A" "octocat" 5 in
  let B := Reference.repository "B" "octocat" 3 in
  let C := Reference.repository "C" "octocat" 5 in
  let out := sortRepositoriesByAccess [B; A; C] ∅ in
  precedes A B out ∧
  ∃ i j : nat, (i < j)%nat ∧ out !! i = Some A ∧ out !! j = Some C.
Proof.
  intros A B C out. split.
  - assert (accessTime ∅ A = accessTime ∅ B) as Htime
      by (vm_compute; reflexivity).
    apply (sortRepositoriesByAccess_score_then_stable [B; A; C] ∅ A B Htime);
      [apply list_elem_of_In; simpl; auto..|reflexivity].
  - assert (accessTime ∅ A = accessTime ∅ C) as Htime
      by (vm_compute; reflexivity).
    destruct (sortRepositoriesByAccess_score_then_stable [B; A; C] ∅ A C Htime)
      as [_ Htie].
    destruct Htie as [_ Hpair]; [reflexivity|].
    apply (Hpair 1%nat 2%nat); [lia|reflexivity..].
Defined.

(** The ranking of the specification's examples, computed. *)
Example sortRepositoriesByAccess_examples :
  let r (i : string) (score : Q) := Reference.repository i "octocat" score in
  id <$> sortRepositoriesByAccess [r "B" 1000%Q; r "A" 0%Q] {["A" := 100]}
    = ["A"; "B"] ∧
  id <$> sortRepositoriesByAccess
           [r "x" 3%Q; r "y" 7%Q; r "z" 3%Q; r "u" 7%Q] ∅
    = ["y"; "u"; "x"; "z"] ∧
  id <$> sortRepositoriesByAccess
           [r "x" 3%Q; r "y" 7%Q; r "z" 9%Q]
           (<["x" := 50]> (<["y" := 50]> {["z" := 20]}))
    = ["y"; "x"; "z"].
Proof. vm_compute. done. Qed.

(** ** Decimal text of integers *)

Lemma digits_string_of_uint d :
  digits (NilEmpty.string_of_uint d) = NilEmpty.string_of_uint d.
Proof. induction d; simpl; [done|by f_equal..]. Qed.

(** Text that starts with a digit: nothing is trimmed, no sign is read and
    the digits are the value. *)
Lemma parseInt_string_of_uint d :
  d ≠ Decimal.Nil → parseInt (NilEmpty.string_of_uint d) = Some (Z.of_uint d).
Proof.
  intros Hd. unfold parseInt.
  destruct d; try done; cbn -[Z.mul Z.of_uint].
  all: repeat match goal with
       | |- context [isWhiteSpace ?c] => change (isWhiteSpace c) with false
       end; cbn -[Z.mul Z.of_uint].
  all: repeat match goal with
       | |- context [isDigit ?c] => change (isDigit c) with true
       end; cbn -[Z.mul Z.of_uint].
  all: rewrite digits_string_of_uint, NilEmpty.usu; cbn -[Z.mul Z.of_uint].
  all: by rewrite Z.mul_1_l.
Qed.

Lemma parseInt_minus_string_of_uint d :
  d ≠ Decimal.Nil →
  parseInt (String "-"%char (NilEmpty.string_of_uint d)) = Some (- Z.of_uint d).
Proof.
  intros Hd. unfold parseInt.
  change (trimStart (String "-"%char ?r)) with (String "-"%char r).
  cbn -[Z.mul Z.of_uint]. rewrite digits_string_of_uint.
  destruct d; try done; cbn -[Z.mul Z.of_uint].
  all: rewrite NilEmpty.usu; cbn -[Z.mul Z.of_uint].
  all: f_equal; lia.
Qed.

Lemma NilZero_string_of_uint d :
  d ≠ Decimal.Nil → NilZero.string_of_uint d = NilEmpty.string_of_uint d.
Proof. by destruct d. Qed.

(** A number written by [toString] reads back with [parseInt]. *)
Lemma parseInt_Number_toString (z : Z) : parseInt (Number_toString z) = Some z.
Proof.
  unfold Number_toString.
  pose proof (DecimalZ.of_to z) as Hz.
  destruct z as [|p|p]; [done|..];
    pose proof (DecimalPos.Unsigned.to_uint_nonnil p) as Hp;
    cbn [Z.to_int NilZero.string_of_int Z.of_int] in *;
    rewrite NilZero_string_of_uint by done.
  - by rewrite parseInt_string_of_uint, Hz.
  - by rewrite parseInt_minus_string_of_uint, Hz.
Qed.

Lemma Number_toString_truthy (z : Z) : truthy (Some (Number_toString z)) = true.
Proof.
  unfold Number_toString.
  destruct z as [|p|p]; [done|..]; cbn [Z.to_int NilZero.string_of_int]; [|done].
  pose proof (DecimalPos.Unsigned.to_uint_nonnil p) as Hp.
  by destruct (Pos.to_uint p).
Qed.

(** ** The usage score *)

(** The reference engine obeys the laws. *)
Lemma Reference_engine_laws : @EngineLaws Reference.engine.
Proof.
  split; simpl.
  - intros x Hx. unfold Reference.exp_series. rewrite Hx. reflexivity.
  - intros x z Hx _. unfold Reference.round_fixed.
    rewrite Hx, <- inject_Z_mult, Qfloor_Z, inject_Z_mult.
    field. discriminate.
  - intros x y Hxy. unfold Reference.round_fixed.
    apply Qmult_le_compat_r; [|done].
    rewrite <- Zle_Qle. apply Qfloor_resp_le.
    by apply Qmult_le_compat_r.
Qed.

Section UsageScoreFacts.
Context `{EngineLaws}.

(** One recency term of the score of a repository last touched at the
    instant of the clock reading. *)
Lemma recency_term_now (days : Q) :
  (days == 0)%Q → (fl (Math_exp (fl (- days / 30)) * 100) == 100)%Q.
Proof.
  intros Hdays.
  apply (fl_integer _ 100); [|done].
  rewrite (Math_exp_zero (fl (- days / 30))); [reflexivity|].
  apply (fl_integer _ 0); [|done].
  rewrite Hdays. reflexivity.
Qed.

Lemma days_since_now (now : Z) :
  (fl (inject_Z (now - now) / inject_Z (1000 * 60 * 60 * 24)) == 0)%Q.
Proof.
  apply (fl_integer _ 0); [|done].
  rewrite Z.sub_diag. reflexivity.
Qed.
End UsageScoreFacts.

(** C7.  With no stars and [updatedAt = pushedAt = now] the score is
    exactly 200: the star term is 0 and each of the two recency terms is
    exactly 100. *)
Theorem calculateUsageScore_now_unstarred `{EngineLaws}
    (now : Z) (updated_at pushed_at : string) :
  Date_getTime updated_at = now →
  Date_getTime pushed_at = now →
  let daysSinceUpdate :=
    fl (inject_Z (now - Date_getTime updated_at) / inject_Z (1000 * 60 * 60 * 24)) in
  let daysSincePush :=
    fl (inject_Z (now - Date_getTime pushed_at) / inject_Z (1000 * 60 * 60 * 24)) in
  (fl (inject_Z 0 * 2) == 0)%Q ∧
  (fl (Math_exp (fl (- daysSinceUpdate / 30)) * 100) == 100)%Q ∧
  (fl (Math_exp (fl (- daysSincePush / 30)) * 100) == 100)%Q ∧
  (calculateUsageScore now 0 updated_at pushed_at == 200)%Q.
Proof.
  intros Hu Hp du dp.
  assert (du == 0)%Q as Hdu by (unfold du; rewrite Hu; apply days_since_now).
  assert (dp == 0)%Q as Hdp by (unfold dp; rewrite Hp; apply days_since_now).
  assert (fl (inject_Z 0 * 2) == 0)%Q as Hstars
    by (by apply (fl_integer _ 0)).
  pose proof (recency_term_now du Hdu) as Htu.
  pose proof (recency_term_now dp Hdp) as Htp.
  repeat split; [done..|].
  unfold calculateUsageScore. fold du dp.
  apply (fl_integer _ 200); [|done].
  rewrite Hstars.
  rewrite (fl_integer _ 200); [reflexivity| |done].
  rewrite Htu, Htp. reflexivity.
Qed.

Lemma calculateUsageScore_now_unstarred_witness :
  (@calculateUsageScore Reference.engine 1704067200000 0
     "2024-01-01T00:00:00Z" "2024-01-01T00:00:00Z" == 200)%Q.
Proof.
  apply (@calculateUsageScore_now_unstarred Reference.engine
           Reference_engine_laws 1704067200000
           "2024-01-01T00:00:00Z" "2024-01-01T00:00:00Z");
    vm_compute; reflexivity.
Defined.

(** C8.  With [updatedAt], [pushedAt] and [now] fixed, the score does not
    decrease when the number of stars grows. *)
Theorem calculateUsageScore_monotone_in_stars `{EngineLaws}
    (now : Z) (updated_at pushed_at : string) (s1 s2 : Z) :
  0 <= s1 → s1 <= s2 →
  (calculateUsageScore now s1 updated_at pushed_at <=
   calculateUsageScore now s2 updated_at pushed_at)%Q.
Proof.
  intros _ Hs. unfold calculateUsageScore.
  apply fl_monotone, Qplus_le_compat; [|apply Qle_refl].
  apply fl_monotone, Qmult_le_compat_r; [|done].
  by rewrite <- Zle_Qle.
Qed.

Lemma calculateUsageScore_monotone_in_stars_witness :
  (@calculateUsageScore Reference.engine 1704067200000 5
     "2023-12-01T00:00:00Z" "2023-12-25T12:00:00Z" <=
   @calculateUsageScore Reference.engine 1704067200000 10
     "2023-12-01T00:00:00Z" "2023-12-25T12:00:00Z")%Q.
Proof.
  apply (@calculateUsageScore_monotone_in_stars Reference.engine
           Reference_engine_laws); lia.
Defined.

(** ** The fetch *)

Lemma compareByUsageScore_sorted (l : list Repository) :
  StronglySorted (may_precede compareByUsageScore)
    (Array_sort compareByUsageScore l).
Proof.
  apply Array_sort_sorted; unfold may_precede, compareByUsageScore.
  - intros x y. lra.
  - intros x y z. lra.
Qed.

Section FetchFacts.
Context `{Engine}.
Variable env : Outside.

(** What a fetch hands over went through the final [sort]. *)
Lemma fetchRepositories_inr w repos w' :
  fetchRepositories env w = (inr repos, w') →
  ∃ l, repos = Array_sort compareByUsageScore l.
Proof.
  unfold fetchRepositories, getOctokit, octokit_repos_listForAuthenticatedUser.
  unfold try_catch, throw, skip, emit, mbind, M_bind, mret, M_ret.
  intros Hrun. repeat case_match; simplify_eq; eauto.
Qed.

Lemma fetchRepositoriesByOwner_inr o w repos w' :
  fetchRepositoriesByOwner env o w = (inr repos, w') →
  ∃ l, repos = Array_sort compareByUsageScore l.
Proof.
  unfold fetchRepositoriesByOwner, getOctokit, octokit_repos_listForUser.
  unfold try_catch, throw, skip, emit, mbind, M_bind, mret, M_ret.
  intros Hrun. repeat case_match; simplify_eq; eauto.
Qed.

(** The clock readings do not touch anything but the clock. *)
Lemma mapM_toRepository (raws : list Api.repo) w :
  ∃ l,
    mapM (λ repo, now ← Date_now env; mret (toRepository now repo)) raws w =
      (inr l,
       {| storage := storage w; component := component w;
          ticks := (ticks w + length raws)%nat; asked := asked w;
          log := log w |}) ∧
    length l = length raws.
Proof.
  revert w. induction raws as [|r raws IH]; intros w; simpl.
  - exists []. split; [|done]. unfold mret, M_ret. destruct w; simpl.
    by rewrite Nat.add_0_r.
  - unfold mbind, M_bind, Date_now at 1, mret at 1, M_ret. simpl.
    edestruct IH as (l & -> & Hl). simpl.
    exists (toRepository (clock env (ticks w)) r :: l).
    split; [|by simpl; rewrite Hl].
    unfold mret, M_ret. do 3 f_equal. lia.
Qed.

(** When GitHub answers, the fetch hands over one repository per element
    of the answer. *)
Lemma fetchRepositories_returns w raws :
  getOctokit_throws env = None →
  listForAuthenticatedUser env = inr raws →
  ∃ repos,
    fetchRepositories env w =
      (inr repos,
       {| storage := storage w; component := component w;
          ticks := (ticks w + length raws)%nat; asked := asked w;
          log := log w ++ [Network ReposListForAuthenticatedUser] |}) ∧
    length repos = length raws.
Proof.
  intros Ho Hl.
  unfold fetchRepositories, getOctokit, octokit_repos_listForAuthenticatedUser.
  rewrite Ho, Hl.
  unfold try_catch, throw, skip, emit, mbind, M_bind. simpl.
  edestruct mapM_toRepository as (l & -> & Hlen). simpl.
  eexists. split; [done|]. by rewrite Array_sort_length.
Qed.

(** When GitHub does not answer, the fetch throws; the only trace it can
    leave is the request. *)
Lemma fetchRepositories_throws w :
  is_Some (getOctokit_throws env) ∨ (∃ e, listForAuthenticatedUser env = inl e) →
  ∃ e,
    fetchRepositories env w = (inl e, w) ∨
    fetchRepositories env w =
      (inl e,
       {| storage := storage w; component := component w; ticks := ticks w;
          asked := asked w;
          log := log w ++ [Network ReposListForAuthenticatedUser] |}).
Proof.
  unfold fetchRepositories, getOctokit, octokit_repos_listForAuthenticatedUser.
  unfold try_catch, throw, skip, emit, mbind, M_bind, mret, M_ret.
  intros [[e He]|[e He]].
  - rewrite He. simpl. eauto.
  - rewrite He. destruct (getOctokit_throws env); simpl; eauto.
Qed.

(** Every run of the fetch is of one of these kinds. *)
Lemma fetchRepositories_cases w :
  (∃ e, (is_Some (getOctokit_throws env) ∨
         ∃ e', listForAuthenticatedUser env = inl e') ∧
        (fetchRepositories env w = (inl e, w) ∨
         fetchRepositories env w =
           (inl e,
            {| storage := storage w; component := component w;
               ticks := ticks w; asked := asked w;
               log := log w ++ [Network ReposListForAuthenticatedUser] |}))) ∨
  (∃ raws repos,
     getOctokit_throws env = None ∧
     listForAuthenticatedUser env = inr raws ∧
     length repos = length raws ∧
     fetchRepositories env w =
       (inr repos,
        {| storage := storage w; component := component w;
           ticks := (ticks w + length raws)%nat; asked := asked w;
           log := log w ++ [Network ReposListForAuthenticatedUser] |})).
Proof.
  destruct (getOctokit_throws env) as [e|] eqn:Ho.
  - left. destruct (fetchRepositories_throws w) as [e' He']; [left; by rewrite Ho|].
    exists e'. split; [|done]. left. by rewrite <- Ho.
  - destruct (listForAuthenticatedUser env) as [e|raws] eqn:Hl.
    + left. destruct (fetchRepositories_throws w) as [e' He']; [right; eauto|].
      exists e'. split; [|done]. right. eauto.
    + right. destruct (fetchRepositories_returns w raws) as (repos & Hrun & Hlen);
        [done..|]. by exists raws, repos.
Qed.
End FetchFacts.

(** C10.  What [fetchRepositories] and [fetchRepositoriesByOwner] return is
    in non-increasing order of [usageScore]: of two neighbours the earlier
    has the higher or the same score. *)
Theorem fetch_returns_descending_usageScore `{Engine}
    (env : Outside) (w : World) (repos : list Repository) :
  (fetchRepositories env w).1 = inr repos ∨
  (∃ o, (fetchRepositoriesByOwner env o w).1 = inr repos) →
  ∀ (i : nat) (a b : Repository),
    repos !! i = Some a → repos !! S i = Some b →
    (usageScore b <= usageScore a)%Q.
Proof.
  intros Hrun i a b Ha Hb.
  assert (∃ l, repos = Array_sort compareByUsageScore l) as [l ->].
  { destruct Hrun as [Hrun|[o Hrun]].
    - destruct (fetchRepositories env w) as [r w'] eqn:E. simpl in Hrun.
      subst r. by eapply fetchRepositories_inr.
    - destruct (fetchRepositoriesByOwner env o w) as [r w'] eqn:E.
      simpl in Hrun. subst r. by eapply fetchRepositoriesByOwner_inr. }
  pose proof (StronglySorted_lookup _ _ i (S i) a b
                (compareByUsageScore_sorted l)) as Hab.
  unfold may_precede, compareByUsageScore in Hab.
  specialize (Hab ltac:(lia) Ha Hb). lra.
Qed.

Lemma fetch_returns_descending_usageScore_witness :
  let env :=
    Reference.online 1704067200000
      [Reference.api_repo 1 (Some 0) "2024-01-01T00:00:00Z";
       Reference.api_repo 2 (Some 10) "2024-01-01T00:00:00Z";
       Reference.api_repo 3 (Some 5) "2024-01-01T00:00:00Z"] in
  let repos :=
    match (@fetchRepositories Reference.engine env (on_mount ∅)).1 with
    | inr l => l
    | inl _ => []
    end in
  (id <$> repos = ["2"; "3"; "1"]) ∧
  ∀ (i : nat) (a b : Repository),
    repos !! i = Some a → repos !! S i = Some b →
    (usageScore b <= usageScore a)%Q.
Proof.
  intros env repos. split; [vm_compute; reflexivity|].
  apply (@fetch_returns_descending_usageScore Reference.engine env (on_mount ∅)).
  left. vm_compute. reflexivity.
Defined.

(** ** The ledger and the cache *)

(** The reference serialisation obeys the laws. *)
Lemma Reference_json_laws (T : Type) `{Countable T} :
  @JsonLaws T (Reference.json T).
Proof.
  assert (∀ p, Reference.pos_of_text (Reference.text_of_pos p) = p) as Hp.
  { induction p as [p IH|p IH|]; simpl; by rewrite ?IH. }
  split; simpl; [|done].
  intros v. rewrite Hp. apply decode_encode.
Qed.

Lemma truthy_Some_true (text : string) :
  text ≠ EmptyString → truthy (Some text) = true.
Proof. by destruct text. Qed.

Section LedgerFacts.
Context `{JsonLaws RepositoryAccessTimes}.
Variable env : Outside.

(** Reading the ledger changes nothing. *)
Lemma getAccessTimes_world w r w' : getAccessTimes w = (r, w') → w' = w.
Proof.
  unfold getAccessTimes, LocalStorage_getItem, parse, mbind, M_bind, mret,
    M_ret, throw.
  intros Hrun. repeat case_match; by simplify_eq.
Qed.

(** Right after a write of the ledger, reading gives what was written. *)
Lemma getAccessTimes_after_setItem w w' (m : RepositoryAccessTimes) :
  storage w' = <[STORAGE_KEY := JSON_stringify m]> (storage w) →
  getAccessTimes w' = (inr m, w').
Proof.
  intros Hw'.
  unfold getAccessTimes, LocalStorage_getItem, parse, mbind, M_bind.
  rewrite Hw', lookup_insert_eq.
  rewrite truthy_Some_true by apply JSON_stringify_truthy.
  by rewrite JSON_parse_stringify.
Qed.
End LedgerFacts.

(** C9.  [updateAccessTime(id)] followed by [getAccessTimes()]: [id] is
    bound to the clock reading of the update, every other entry is what
    it was before, and no entry has gone. *)
Theorem updateAccessTime_then_getAccessTimes
    `{JsonLaws RepositoryAccessTimes}
    (env : Outside) (w : World) (repoId : string)
    (before : RepositoryAccessTimes) :
  (getAccessTimes w).1 = inr before →
  ∃ (w1 w2 : World) (after : RepositoryAccessTimes),
    updateAccessTime env repoId w = (inr (), w1) ∧
    getAccessTimes w1 = (inr after, w2) ∧
    after !! repoId = Some (clock env (ticks w)) ∧
    (∀ other : string, other ≠ repoId → after !! other = before !! other) ∧
    (∀ k : string, is_Some (before !! k) → is_Some (after !! k)).
Proof.
  intros Hread.
  destruct (getAccessTimes w) as [r w0] eqn:Hget. simpl in Hread. subst r.
  pose proof (getAccessTimes_world _ _ _ Hget) as ->.
  set (after := <[repoId := clock env (ticks w)]> before).
  set (w1 := {| storage := <[STORAGE_KEY := JSON_stringify after]> (storage w);
                component := component w; ticks := S (ticks w);
                asked := asked w;
                log := log w ++ [Stored STORAGE_KEY (JSON_stringify after)] |}).
  exists w1, w1, after. split; [|split; [|split; [|split]]].
  - unfold updateAccessTime, mbind, M_bind. rewrite Hget. done.
  - by apply (getAccessTimes_after_setItem w).
  - apply lookup_insert_eq.
  - intros other Hne. by apply lookup_insert_ne.
  - intros k Hk. unfold after. rewrite lookup_insert. by case_decide.
Qed.

Lemma updateAccessTime_then_getAccessTimes_witness :
  let before : RepositoryAccessTimes := <["7" := 50]> {["2" := 100]} in
  let ls : gmap string string :=
    {[STORAGE_KEY := @JSON_stringify _ Reference.json_times before]} in
  let env := Reference.online 1704067200000 [] in
  (@getAccessTimes Reference.json_times (on_mount ls)).1 = inr before ∧
  ∃ (w1 w2 : World) (after : RepositoryAccessTimes),
    @updateAccessTime Reference.json_times env "2" (on_mount ls) =
      (inr (), w1) ∧
    @getAccessTimes Reference.json_times w1 = (inr after, w2) ∧
    after !! "2" = Some 1704067200000 ∧
    after !! "7" = Some 50 ∧
    after !! "9" = None ∧
    (∀ other : string, other ≠ "2" → after !! other = before !! other) ∧
    (∀ k : string, is_Some (before !! k) → is_Some (after !! k)).
Proof.
  intros before ls env.
  assert ((@getAccessTimes Reference.json_times (on_mount ls)).1 = inr before)
    as Hread by (vm_compute; reflexivity).
  split; [exact Hread|].
  destruct (@updateAccessTime_then_getAccessTimes Reference.json_times
              (Reference_json_laws _) env (on_mount ls) "2" before Hread)
    as (w1 & w2 & after & Hrun & Hafter & Hclicked & Hothers & Hkept).
  exists w1, w2, after.
  split; [exact Hrun|]. split; [exact Hafter|]. split; [exact Hclicked|].
  split; [rewrite (Hothers "7"); [reflexivity|discriminate]|].
  split; [rewrite (Hothers "9"); [reflexivity|discriminate]|].
  split; [exact Hothers|exact Hkept].
Defined.

(** The ledger after a few recorded accesses, run on the reference
    serialisation. *)
Example updateAccessTime_twice :
  let env := {| clock := λ n, 1000 + Z.of_nat n; getOctokit_throws := None;
                listForAuthenticatedUser := inr []; listForUser := λ _, inr [];
                getAuthenticated := λ _, inr "octocat" |} in
  let run := (@updateAccessTime Reference.json_times env "7";;
              @updateAccessTime Reference.json_times env "9";;
              @updateAccessTime Reference.json_times env "7";;
              @getAccessTimes Reference.json_times) in
  (run (on_mount ∅)).1 = inr (<["7" := 1002]> (<["9" := 1001]> ∅)).
Proof. vm_compute. reflexivity. Qed.

Section CacheFacts.
Context `{Json (list Repository)}.
Variable env : Outside.

Lemma isCacheValid_run w :
  ∃ b : bool,
    isCacheValid env w =
      (inr b,
       {| storage := storage w; component := component w;
          ticks := if truthy (storage w !! CACHE_TIMESTAMP_KEY)
                   then S (ticks w) else ticks w;
          asked := asked w; log := log w |}) ∧
    (b = true ↔
     ∃ t, fetchedAt (storage w) = Some t ∧
          clock env (ticks w) - t < CACHE_DURATION).
Proof.
  unfold isCacheValid, fetchedAt, LocalStorage_getItem, Date_now, mbind,
    M_bind, mret, M_ret.
  destruct (storage w !! CACHE_TIMESTAMP_KEY) as [text|] eqn:E.
  - destruct text as [|c text]; simpl.
    + exists false. destruct w; simpl. split; [done|].
      split; [done|]. by intros (t & ? & _).
    + destruct (parseInt (String c text)) as [t|].
      * eexists. split; [done|]. rewrite Z.ltb_lt.
        split; [by exists t|]. by intros (t' & [= <-] & ?).
      * exists false. split; [done|].
        split; [done|]. by intros (t & ? & _).
  - exists false. destruct w; simpl. split; [done|].
    split; [done|]. by intros (t & ? & _).
Qed.

(** A write of the cache records the clock reading of the write. *)
Lemma setCachedRepositories_run (repos : list Repository) w :
  let text := JSON_stringify repos in
  let now := Number_toString (clock env (ticks w)) in
  setCachedRepositories env repos w =
    (inr (),
     {| storage := <[CACHE_TIMESTAMP_KEY := now]> (<[CACHE_KEY := text]> (storage w));
        component := component w; ticks := S (ticks w); asked := asked w;
        log := log w ++ [Stored CACHE_KEY text; Stored CACHE_TIMESTAMP_KEY now] |}).
Proof.
  unfold setCachedRepositories, LocalStorage_setItem, Date_now, mbind, M_bind.
  simpl. by rewrite <- app_assoc.
Qed.

Lemma setCachedRepositories_fetchedAt (repos : list Repository) w :
  fetchedAt (storage (setCachedRepositories env repos w).2) =
    Some (clock env (ticks w)).
Proof.
  rewrite setCachedRepositories_run. unfold fetchedAt. cbn [snd storage].
  rewrite lookup_insert_eq, Number_toString_truthy.
  apply parseInt_Number_toString.
Qed.
End CacheFacts.

(** C4.  [isCacheValid] answers [true] exactly when a fetch timestamp is
    stored and the clock reading minus that timestamp is below
    [CACHE_DURATION], which is 5 minutes; so an entry aged 4 min 59 s is
    valid and one aged 5 min 0 s is not. *)
Theorem isCacheValid_iff_fresh (env : Outside) (w : World) :
  CACHE_DURATION = 5 * 60 * 1000 ∧
  ∃ (b : bool) (w' : World),
    isCacheValid env w = (inr b, w') ∧
    (b = true ↔
     ∃ t, fetchedAt (storage w) = Some t ∧
          clock env (ticks w) - t < CACHE_DURATION) ∧
    (∀ t, fetchedAt (storage w) = Some t →
          clock env (ticks w) - t = (4 * 60 + 59) * 1000 → b = true) ∧
    (∀ t, fetchedAt (storage w) = Some t →
          clock env (ticks w) - t = 5 * 60 * 1000 → b = false).
Proof.
  split; [done|].
  destruct (isCacheValid_run env w) as (b & Hrun & Hb).
  exists b. eexists. split; [exact Hrun|]. split; [done|]. split.
  - intros t Ht Hage. apply Hb. exists t. split; [done|].
    rewrite Hage. done.
  - intros t Ht Hage. destruct b; [|done].
    destruct Hb as [Hb _]. destruct (Hb eq_refl) as (t' & Ht' & Hlt).
    rewrite Ht in Ht'. injection Ht' as <-. rewrite Hage in Hlt.
    unfold CACHE_DURATION in Hlt. lia.
Qed.

(** The cache written at [t0] and checked 4 min 59 s and 5 min later. *)
Example isCacheValid_around_five_minutes :
  let t0 := 1704067200000 in
  let at_age (age : Z) : Outside :=
    {| clock := λ n, match n with O => t0 | _ => t0 + age end;
       getOctokit_throws := None; listForAuthenticatedUser := inr [];
       listForUser := λ _, inr []; getAuthenticated := λ _, inr "octocat" |} in
  let check (age : Z) :=
    ((@setCachedRepositories Reference.json_repos (at_age age) [];;
      isCacheValid (at_age age)) (on_mount ∅)).1 in
  check 0 = inr true ∧
  check ((4 * 60 + 59) * 1000) = inr true ∧
  check (5 * 60 * 1000) = inr false ∧
  (isCacheValid (at_age 0) (on_mount ∅)).1 = inr false.
Proof. vm_compute. done. Qed.

Lemma isCacheValid_iff_fresh_witness :
  let t0 := 1704067200000 in
  let env := Reference.online (t0 + (4 * 60 + 59) * 1000) [] in
  (isCacheValid env (on_mount (Reference.store t0))).1 = inr true.
Proof.
  intros t0 env.
  destruct (isCacheValid_iff_fresh env (on_mount (Reference.store t0)))
    as (_ & b & w' & Hrun & _ & Hfresh & _).
  rewrite Hrun. simpl. f_equal.
  apply (Hfresh t0); vm_compute; reflexivity.
Defined.

(** ** The load flow *)

#[local] Arguments sortRepositoriesByAccess : simpl never.
#[local] Arguments Number_toString : simpl never.
#[local] Arguments parseInt : simpl never.
#[local] Arguments truthy : simpl never.

Section LoadFacts.
Context `{Engine}.
Context `{Json RepositoryAccessTimes} `{Json (list Repository)}.
Variable env : Outside.

Lemma getCachedRepositories_world w r w' :
  getCachedRepositories w = (r, w') → w' = w.
Proof.
  unfold getCachedRepositories, LocalStorage_getItem, parse, mbind, M_bind,
    mret, M_ret, throw.
  intros Hrun. repeat case_match; by simplify_eq.
Qed.

(** One step of a run: the next call whose answer is not known is split
    into its cases. *)
Ltac run_step :=
  match goal with
  | |- context [isCacheValid ?e ?W] =>
      let b := fresh "valid" in
      let Hr := fresh "Hr" in
      destruct (isCacheValid_run e W) as (b & Hr & _);
      rewrite Hr; clear Hr; destruct b
  | |- context [fetchRepositories ?e ?W] =>
      let Hr := fresh "Hr" in
      let Hf := fresh "Hfetch" in
      destruct (fetchRepositories_cases e W)
        as [(? & ? & [Hr|Hr])|(? & ? & ? & ? & ? & Hr)];
      try congruence;
      pose proof Hr as Hf; rewrite Hr; clear Hr
  | |- context [setCachedRepositories ?e ?l ?W] =>
      rewrite (setCachedRepositories_run e l W)
  | |- context [octokit_users_getAuthenticated ?e ?W] =>
      unfold octokit_users_getAuthenticated
  | |- context [getAuthenticated ?e ?n] =>
      destruct (getAuthenticated e n) as [?|?]
  | |- context [(0 <? length ?l)%nat] => destruct (0 <? length l)%nat
  end; cbn -[app insert Nat.ltb].

Ltac no_stored_event :=
  let Hin := fresh "Hin" in
  intros ? ? Hin;
  repeat (apply elem_of_cons in Hin as [?|Hin]; [discriminate|]);
  by apply elem_of_nil in Hin.

Ltac no_store_on_failure :=
  let Hfail := fresh "Hfail" in
  intros Hfail;
  first
    [ by (destruct Hfail as [[? ?]|[? ?]]; congruence)
    | split; [reflexivity|];
      eexists; split; [rewrite <- ?app_assoc; reflexivity|no_stored_event] ].

Ltac store_only_on_success :=
  first
    [ left; reflexivity
    | right; do 4 eexists;
      split; [eassumption|]; split; [eassumption|]; split; [assumption|];
      reflexivity ].

Lemma loadRepositories_storage w :
  let w' := (loadRepositories env w).2 in
  (is_Some (getOctokit_throws env) ∨ (∃ e, listForAuthenticatedUser env = inl e) →
   storage w' = storage w ∧
   ∃ l, log w' = log w ++ l ∧ ∀ k v, Stored k v ∉ l) ∧
  (storage w' = storage w ∨
   ∃ raws repos w1 w2,
     listForAuthenticatedUser env = inr raws ∧
     fetchRepositories env w1 = (inr repos, w2) ∧
     length repos = length raws ∧
     storage w' =
       <[CACHE_TIMESTAMP_KEY := Number_toString (clock env (ticks w2))]>
         (<[CACHE_KEY := JSON_stringify repos]> (storage w))).
Proof.
  unfold loadRepositories, try_finally, try_catch, mbind, M_bind, getOctokit.
  destruct (getAccessTimes w) as [[e|times] w0] eqn:Et;
    apply getAccessTimes_world in Et as ->.
  { cbn -[app]. split; [no_store_on_failure|store_only_on_success]. }
  destruct (getCachedRepositories w) as [[e|cached] w0] eqn:Ec;
    apply getCachedRepositories_world in Ec as ->.
  { cbn -[app]. split; [no_store_on_failure|store_only_on_success]. }
  destruct (getOctokit_throws env) as [eo|] eqn:Ho;
  destruct cached as [[|first rest]|]; cbn -[app insert Nat.ltb];
  try destruct (truthy (Some (owner first))); cbn -[app insert Nat.ltb];
  repeat run_step.
  all: split; [no_store_on_failure|store_only_on_success].
Qed.

Ltac first_request_state :=
  let Hc := fresh "Hc" in
  intros ? Hc; simpl in Hc; simplify_eq; reflexivity.

Ltac no_request_state :=
  let Hc := fresh "Hc" in
  intros Hc; simpl in Hc; simplify_eq; reflexivity.

Ltac cache_shown_before_requests :=
  let Hne := fresh "Hne" in
  intros Hne;
  first
    [ congruence
    | eexists [_; _], _, _;
      split; [reflexivity|]; split; [reflexivity|];
      let Hin := fresh "Hin" in
      intros ? Hin;
      repeat (apply elem_of_cons in Hin as [?|Hin]; [discriminate|]);
      by apply elem_of_nil in Hin ].

Lemma loadRepositories_log ls times cached :
  (getAccessTimes (on_mount ls)).1 = inr times →
  (getCachedRepositories (on_mount ls)).1 = inr (Some cached) →
  let events := log (loadRepositories env (on_mount ls)).2 in
  let ranked := sortRepositoriesByAccess cached times in
  (∀ c, shown_at_request any_request mounted events = Some c →
        sortedRepositories c = ranked) ∧
  (∀ c, shown_at_request is_fetch mounted events = Some c →
        sortedRepositories c = ranked) ∧
  (shown_at_request any_request mounted events = None →
   sortedRepositories (shown_after mounted events) = ranked) ∧
  (cached ≠ [] →
   ∃ before c after,
     events = before ++ Shown c :: after ∧
     sortedRepositories c = ranked ∧
     ∀ r, Network r ∉ before).
Proof.
  intros Ht Hc.
  unfold loadRepositories, try_finally, try_catch, mbind, M_bind, getOctokit.
  destruct (getAccessTimes (on_mount ls)) as [r w0] eqn:Et;
    apply getAccessTimes_world in Et as ->.
  simpl in Ht. subst r.
  destruct (getCachedRepositories (on_mount ls)) as [r w0] eqn:Ec;
    apply getCachedRepositories_world in Ec as ->.
  simpl in Hc. subst r.
  destruct (getOctokit_throws env) as [eo|] eqn:Ho;
  destruct cached as [|first rest]; cbn -[app insert Nat.ltb];
  try destruct (truthy (Some (owner first))); cbn -[app insert Nat.ltb];
  repeat run_step.
  all: simpl.
  all: split; [first_request_state|];
       split; [first_request_state|];
       split; [no_request_state|cache_shown_before_requests].
Qed.
End LoadFacts.

(** C2.  When the store holds cached repositories (and the ledger can be
    read), the list on screen is the cached repositories ranked with the
    recorded access times at the moment the first request of any kind goes
    out, and at the moment the fetch goes out; when no request goes out at
    all, that is the list the load ends with.  A cache that is not empty
    is put on screen by a state update that comes before every request. *)
Theorem loadRepositories_shows_cache_before_network
    `{Engine} `{Json RepositoryAccessTimes} `{Json (list Repository)}
    (env : Outside) (ls : gmap string string)
    (times : RepositoryAccessTimes) (cached : list Repository) :
  (getAccessTimes (on_mount ls)).1 = inr times →
  (getCachedRepositories (on_mount ls)).1 = inr (Some cached) →
  let events := log (loadRepositories env (on_mount ls)).2 in
  let ranked := sortRepositoriesByAccess cached times in
  (∀ c, shown_at_request any_request mounted events = Some c →
        sortedRepositories c = ranked) ∧
  (∀ c, shown_at_request is_fetch mounted events = Some c →
        sortedRepositories c = ranked) ∧
  (shown_at_request any_request mounted events = None →
   sortedRepositories (shown_after mounted events) = ranked) ∧
  (cached ≠ [] →
   ∃ before c after,
     events = before ++ Shown c :: after ∧
     sortedRepositories c = ranked ∧
     ∀ r, Network r ∉ before).
Proof. apply loadRepositories_log. Qed.

Lemma loadRepositories_shows_cache_before_network_witness :
  let env :=
    Reference.online 1704069000000
      [Reference.api_repo 3 (Some 5) "2024-01-01T00:00:00Z"] in
  let events :=
    log (@loadRepositories Reference.engine Reference.json_times
           Reference.json_repos env
           (on_mount (Reference.store 1704067200000))).2 in
  ∃ c,
    shown_at_request is_fetch mounted events = Some c ∧
    sortedRepositories c =
      sortRepositoriesByAccess Reference.cached Reference.times ∧
    id <$> sortedRepositories c = ["2"; "1"].
Proof.
  intros env events.
  destruct (shown_at_request is_fetch mounted events) as [c|] eqn:E;
    [|by vm_compute in E].
  exists c. split; [done|].
  assert (sortedRepositories c =
          sortRepositoriesByAccess Reference.cached Reference.times) as Hc.
  { apply (@loadRepositories_shows_cache_before_network
             Reference.engine Reference.json_times Reference.json_repos
             env (Reference.store 1704067200000)
             Reference.times Reference.cached);
      [vm_compute; reflexivity..|exact E]. }
  split; [exact Hc|]. rewrite Hc. vm_compute. reflexivity.
Defined.

(** C3.  When the fetch fails, the load leaves the store as it found it
    and writes nothing.  In every run the store is either left as it was
    or has both cache keys overwritten, with the whole list a successful
    fetch returned and the clock reading taken after it. *)
Theorem loadRepositories_writes_cache_only_on_success
    `{Engine} `{Json RepositoryAccessTimes} `{Json (list Repository)}
    (env : Outside) (w : World) :
  let w' := (loadRepositories env w).2 in
  (is_Some (getOctokit_throws env) ∨
   (∃ e, listForAuthenticatedUser env = inl e) →
   storage w' = storage w ∧
   ∃ l, log w' = log w ++ l ∧ ∀ k v, Stored k v ∉ l) ∧
  (storage w' = storage w ∨
   ∃ raws repos w1 w2,
     listForAuthenticatedUser env = inr raws ∧
     fetchRepositories env w1 = (inr repos, w2) ∧
     length repos = length raws ∧
     storage w' =
       <[CACHE_TIMESTAMP_KEY := Number_toString (clock env (ticks w2))]>
         (<[CACHE_KEY := JSON_stringify repos]> (storage w))).
Proof. apply loadRepositories_storage. Qed.

Lemma loadRepositories_writes_cache_only_on_success_witness :
  let w := on_mount (Reference.store 1704067200000) in
  let w' :=
    (@loadRepositories Reference.engine Reference.json_times
       Reference.json_repos (Reference.offline 1704069000000) w).2 in
  storage w' = storage w ∧
  ∃ l, log w' = log w ++ l ∧ ∀ k v, Stored k v ∉ l.
Proof.
  apply (@loadRepositories_writes_cache_only_on_success
           Reference.engine Reference.json_times Reference.json_repos
           (Reference.offline 1704069000000)
           (on_mount (Reference.store 1704067200000))).
  right. eexists. reflexivity.
Defined.

(** The same stale store, loaded while GitHub is out of reach and while
    it answers. *)
Example loadRepositories_offline_and_online :
  let ls := Reference.store 1704067200000 in
  let load (env : Outside) :=
    (@loadRepositories Reference.engine Reference.json_times
       Reference.json_repos env (on_mount ls)).2 in
  let offline := load (Reference.offline 1704069000000) in
  let online :=
    load (Reference.online 1704069000000
            [Reference.api_repo 3 (Some 5) "2024-01-01T00:00:00Z"]) in
  bool_decide (storage offline = ls) = true ∧
  error (component offline) =
    Some "Unable to connect to GitHub. Please check your internet connection." ∧
  id <$> sortedRepositories (component offline) = ["2"; "1"] ∧
  fetchedAt (storage online) = Some 1704069000000 ∧
  id <$> sortedRepositories (component online) = ["3"] ∧
  error (component online) = None.
Proof.
  cbv zeta.
  split; [|split; [|split; [|split; [|split]]]]; vm_compute; reflexivity.
Qed.

(** Nothing stored yet: the first load fetches, and with an empty ledger
    and equal recency the list is in descending order of stars. *)
Example loadRepositories_first_run :
  let env :=
    Reference.online 1704067200000
      [Reference.api_repo 1 (Some 0) "2024-01-01T00:00:00Z";
       Reference.api_repo 2 (Some 5) "2024-01-01T00:00:00Z";
       Reference.api_repo 3 (Some 10) "2024-01-01T00:00:00Z"] in
  let w :=
    (@loadRepositories Reference.engine Reference.json_times
       Reference.json_repos env (on_mount ∅)).2 in
  stars <$> sortedRepositories (component w) = [10; 5; 0] ∧
  isLoading (component w) = false ∧
  fetchedAt (storage w) = Some 1704067200000.
Proof.
  cbv zeta. split; [|split]; vm_compute; reflexivity.
Qed.

(** ** Error classification *)

(** [message] contains [pattern] somewhere. *)
Lemma substring_app_middle (pre sub post : string) :
  substring (String.length pre) (String.length sub) (pre +:+ sub +:+ post) = sub.
Proof.
  induction pre as [|c pre IH]; simpl; [|done].
  induction sub as [|c sub IH]; simpl; [by destruct post|by f_equal].
Qed.

Lemma substring_prefix_split (n : nat) (s t : string) :
  substring 0 n s = t → String.length t = n → ∃ post, s = t +:+ post.
Proof.
  revert n t. induction s as [|c s IH]; intros n t Hsub Hlen.
  - destruct n; simpl in Hsub; subst t; [by exists ""|done].
  - destruct n as [|n]; simpl in Hsub.
    + subst t. by exists (String c s).
    + destruct t as [|c' t]; [done|]. injection Hsub as -> Hsub.
      simpl in Hlen. injection Hlen as Hlen.
      destruct (IH n t Hsub Hlen) as (post & ->). by exists post.
Qed.

Lemma substring_split (m n : nat) (s t : string) :
  substring m n s = t → String.length t = n →
  ∃ pre post, s = pre +:+ t +:+ post.
Proof.
  revert m. induction s as [|c s IH]; intros m Hsub Hlen.
  - destruct m; [|simpl in Hsub].
    + destruct (substring_prefix_split n "" t Hsub Hlen) as [post ->].
      by exists "", post.
    + destruct n; simpl in Hsub; subst t; [by exists "", ""|done].
  - destruct m as [|m].
    + destruct (substring_prefix_split n _ t Hsub Hlen) as [post ->].
      by exists "", post.
    + simpl in Hsub. destruct (IH m Hsub Hlen) as (pre & post & ->).
      by exists (String c pre), post.
Qed.

Lemma includes_spec (s sub : string) :
  sub ≠ "" →
  includes s sub = true ↔ ∃ pre post, s = pre +:+ sub +:+ post.
Proof.
  intros Hne. unfold includes.
  destruct (index 0 sub s) as [m|] eqn:E.
  - split; [intros _|done].
    apply index_correct1 in E. by eapply substring_split.
  - split; [done|]. intros (pre & post & ->).
    eapply (index_correct3 _ (String.length pre)) in E; [|done|lia].
    destruct E. apply substring_app_middle.
Qed.

(** X1.  The classifier always hands back an [Error], and classifying its
    result again changes nothing. *)
Theorem handleGitHubError_idempotent (e : thrown) :
  (∃ message, handleGitHubError e = JsError message) ∧
  handleGitHubError (handleGitHubError e) = handleGitHubError e.
Proof.
  destruct e as [m|]; [|split; [eauto|reflexivity]].
  unfold handleGitHubError at 1 3 4.
  destruct (includes m "Bad credentials") eqn:E1;
    [split; [eauto|reflexivity]|].
  destruct (includes m "rate limit") eqn:E2;
    [split; [eauto|reflexivity]|].
  destruct (includes m "ENOTFOUND" || includes m "network") eqn:E3;
    [split; [eauto|reflexivity]|].
  destruct (includes m "Resource protected by organization SAML enforcement")
    eqn:E4; [split; [eauto|reflexivity]|].
  split; [eauto|]. unfold handleGitHubError. by rewrite E1, E2, E3, E4.
Qed.

(** X2.  The patterns are tried in a fixed order, and the first one that
    occurs anywhere in the message decides; a message with none of them is
    handed back as it is. *)
Theorem handleGitHubError_first_pattern_wins (message : string) :
  let out := handleGitHubError (JsError message) in
  (contains message "Bad credentials" →
   out = JsError "Invalid GitHub token. Please check your credentials.") ∧
  (¬ contains message "Bad credentials" →
   contains message "rate limit" →
   out = JsError "GitHub API rate limit exceeded. Please try again later.") ∧
  (¬ contains message "Bad credentials" →
   ¬ contains message "rate limit" →
   contains message "ENOTFOUND" ∨ contains message "network" →
   out = JsError "Unable to connect to GitHub. Please check your internet connection.") ∧
  (¬ contains message "Bad credentials" →
   ¬ contains message "rate limit" →
   ¬ contains message "ENOTFOUND" → ¬ contains message "network" →
   contains message "Resource protected by organization SAML enforcement" →
   out = JsError "GitHub token is missing authorization for organizations that use SSO. Please re-authenticate to fix this.") ∧
  (¬ contains message "Bad credentials" →
   ¬ contains message "rate limit" →
   ¬ contains message "ENOTFOUND" → ¬ contains message "network" →
   ¬ contains message "Resource protected by organization SAML enforcement" →
   out = JsError message).
Proof.
  assert (∀ p, p ≠ "" → includes message p = true ↔ contains message p) as Hi
    by (intros p Hp; by apply includes_spec).
  assert (∀ p, p ≠ "" → ¬ contains message p → includes message p = false) as Hn.
  { intros p Hp Hc. destruct (includes message p) eqn:E; [|done].
    destruct Hc. by apply Hi. }
  cbv zeta. unfold handleGitHubError.
  split; [|split; [|split; [|split]]]; intros;
    repeat match goal with
    | H : _ ∨ _ |- _ => destruct H
    end;
    repeat match goal with
    | H : contains _ ?p |- _ =>
        rewrite (proj2 (Hi p ltac:(done)) H); clear H
    | H : ¬ contains _ ?p |- _ => rewrite (Hn p ltac:(done) H); clear H
    end;
    by rewrite ?orb_true_r.
Qed.

Lemma handleGitHubError_first_pattern_wins_witness :
  handleGitHubError
    (JsError "HttpError: Bad credentials (network, rate limit)") =
  JsError "Invalid GitHub token. Please check your credentials.".
Proof.
  apply (handleGitHubError_first_pattern_wins
           "HttpError: Bad credentials (network, rate limit)").
  by exists "HttpError: ", " (network, rate limit)".
Defined.

(** ** More on the fetch *)

Lemma Number_toString_inj (z z' : Z) :
  Number_toString z = Number_toString z' → z = z'.
Proof.
  intros Heq. pose proof (parseInt_Number_toString z) as Hz.
  rewrite Heq, parseInt_Number_toString in Hz. by injection Hz.
Qed.

Section FetchMore.
Context `{Engine}.
Variable env : Outside.

(** The element at index [k] of the answer is scored with the [k]-th clock
    reading after the request. *)
Lemma mapM_toRepository_imap (raws : list Api.repo) w :
  mapM (λ repo, now ← Date_now env; mret (toRepository now repo)) raws w =
    (inr (imap (λ k, toRepository (clock env (ticks w + k))) raws),
     {| storage := storage w; component := component w;
        ticks := (ticks w + length raws)%nat; asked := asked w;
        log := log w |}).
Proof.
  revert w. induction raws as [|r raws IH]; intros w; simpl.
  - unfold mret, M_ret. destruct w; simpl. by rewrite Nat.add_0_r.
  - unfold mbind, M_bind, Date_now at 1, mret at 1, M_ret. simpl.
    rewrite IH. simpl. unfold mret, M_ret. f_equal.
    + f_equal. rewrite Nat.add_0_r. f_equal.
      apply imap_ext. intros k x _. simpl. f_equal. f_equal. lia.
    + f_equal. lia.
Qed.

Lemma imap_toRepository_ids (t : nat → Z) (raws : list Api.repo) :
  id <$> imap (λ k, toRepository (t k)) raws =
  (λ raw, Number_toString (Api.id raw)) <$> raws.
Proof.
  revert t. induction raws as [|r raws IH]; intros t; [done|].
  rewrite imap_cons. simpl. f_equal. apply (IH (t ∘ S)).
Qed.

Lemma fetchRepositories_online (raws : list Api.repo) w :
  getOctokit_throws env = None →
  listForAuthenticatedUser env = inr raws →
  fetchRepositories env w =
    (inr (Array_sort compareByUsageScore
            (imap (λ k, toRepository (clock env (ticks w + k))) raws)),
     {| storage := storage w; component := component w;
        ticks := (ticks w + length raws)%nat; asked := asked w;
        log := log w ++ [Network ReposListForAuthenticatedUser] |}).
Proof.
  intros Ho Hl.
  unfold fetchRepositories, getOctokit, octokit_repos_listForAuthenticatedUser.
  rewrite Ho, Hl.
  pose proof (mapM_toRepository_imap raws
    {| storage := storage w; component := component w; ticks := ticks w;
       asked := asked w; log := log w ++ [Network ReposListForAuthenticatedUser] |}) as Hm.
  unfold try_catch, throw, skip, emit, mbind, M_bind, Date_now in *.
  simpl in *. by rewrite Hm.
Qed.

Lemma fetchRepositoriesByOwner_online (o : string) (raws : list Api.repo) w :
  getOctokit_throws env = None →
  listForUser env o = inr raws →
  fetchRepositoriesByOwner env o w =
    (inr (Array_sort compareByUsageScore
            (imap (λ k, toRepository (clock env (ticks w + k))) raws)),
     {| storage := storage w; component := component w;
        ticks := (ticks w + length raws)%nat; asked := asked w;
        log := log w ++ [Network (ReposListForUser o)] |}).
Proof.
  intros Ho Hl.
  unfold fetchRepositoriesByOwner, getOctokit, octokit_repos_listForUser.
  rewrite Ho, Hl.
  pose proof (mapM_toRepository_imap raws
    {| storage := storage w; component := component w; ticks := ticks w;
       asked := asked w; log := log w ++ [Network (ReposListForUser o)] |}) as Hm.
  unfold try_catch, throw, skip, emit, mbind, M_bind, Date_now in *.
  simpl in *. by rewrite Hm.
Qed.
End FetchMore.

(** X3.  When GitHub answers, each fetch returns the answer's elements
    turned into repositories, the [k]-th scored with the [k]-th clock
    reading, rearranged by the final sort; the ids are the decimal texts of
    GitHub's ids.  The run sends one request and touches neither the store
    nor the component. *)
Theorem fetch_returns_the_answer `{Engine} (env : Outside) (w : World)
    (raws : list Api.repo) :
  getOctokit_throws env = None →
  let scored := imap (λ k, toRepository (clock env (ticks w + k))) raws in
  let after (r : Request) :=
    {| storage := storage w; component := component w;
       ticks := (ticks w + length raws)%nat; asked := asked w;
       log := log w ++ [Network r] |} in
  (listForAuthenticatedUser env = inr raws →
   ∃ repos,
     fetchRepositories env w = (inr repos, after ReposListForAuthenticatedUser) ∧
     repos ≡ₚ scored ∧
     id <$> repos ≡ₚ (λ raw, Number_toString (Api.id raw)) <$> raws) ∧
  (∀ o, listForUser env o = inr raws →
   ∃ repos,
     fetchRepositoriesByOwner env o w = (inr repos, after (ReposListForUser o)) ∧
     repos ≡ₚ scored ∧
     id <$> repos ≡ₚ (λ raw, Number_toString (Api.id raw)) <$> raws).
Proof.
  intros Ho scored after. split; [intros Hl|intros o Hl].
  - exists (Array_sort compareByUsageScore scored). split; [|split].
    + by apply fetchRepositories_online.
    + apply Array_sort_perm.
    + rewrite Array_sort_perm. unfold scored.
      by rewrite imap_toRepository_ids.
  - exists (Array_sort compareByUsageScore scored). split; [|split].
    + by apply fetchRepositoriesByOwner_online.
    + apply Array_sort_perm.
    + rewrite Array_sort_perm. unfold scored.
      by rewrite imap_toRepository_ids.
Qed.

Lemma fetch_returns_the_answer_witness :
  let raws :=
    [Reference.api_repo 1 (Some 0) "2024-01-01T00:00:00Z";
     Reference.api_repo 2 (Some 10) "2024-01-01T00:00:00Z"] in
  let env := Reference.online 1704067200000 raws in
  ∃ repos,
    (@fetchRepositories Reference.engine env (on_mount ∅)).1 = inr repos ∧
    id <$> repos ≡ₚ ["1"; "2"].
Proof.
  intros raws env.
  destruct (@fetch_returns_the_answer Reference.engine env (on_mount ∅) raws
              eq_refl) as [Hfetch _].
  destruct (Hfetch eq_refl) as (repos & Hrun & _ & Hids).
  exists repos. rewrite Hrun. split; [done|]. exact Hids.
Defined.

(** X4.  Repositories that GitHub tells apart by id keep distinct ids in
    what the fetch returns. *)
Theorem fetch_keeps_ids_distinct `{Engine} (env : Outside) (w : World)
    (raws : list Api.repo) (repos : list Repository) :
  getOctokit_throws env = None →
  listForAuthenticatedUser env = inr raws →
  NoDup (Api.id <$> raws) →
  (fetchRepositories env w).1 = inr repos →
  NoDup (id <$> repos).
Proof.
  intros Ho Hl Hnd Hrun.
  rewrite (fetchRepositories_online env raws w Ho Hl) in Hrun.
  simpl in Hrun. injection Hrun as <-.
  rewrite Array_sort_perm, imap_toRepository_ids.
  replace ((λ raw, Number_toString (Api.id raw)) <$> raws)
    with (Number_toString <$> (Api.id <$> raws))
    by (by rewrite <- list_fmap_compose).
  apply NoDup_fmap_2; [|done]. intros ??. apply Number_toString_inj.
Qed.

Lemma fetch_keeps_ids_distinct_witness :
  let raws :=
    [Reference.api_repo 1 (Some 0) "2024-01-01T00:00:00Z";
     Reference.api_repo 2 (Some 10) "2024-01-01T00:00:00Z"] in
  let env := Reference.online 1704067200000 raws in
  let repos :=
    match (@fetchRepositories Reference.engine env (on_mount ∅)).1 with
    | inr l => l
    | inl _ => []
    end in
  NoDup (id <$> repos).
Proof.
  intros raws env repos.
  apply (@fetch_keeps_ids_distinct Reference.engine env (on_mount ∅) raws);
    [reflexivity..| |vm_compute; reflexivity].
  simpl. apply NoDup_cons. split; [|apply NoDup_singleton].
  intros Hin. apply list_elem_of_singleton in Hin. discriminate.
Defined.

(** X5.  A fetch that fails leaves the store and the component alone.  What
    [getOctokit] throws is thrown on as it is, before any request; what the
    listing throws is thrown on classified by [handleGitHubError], after
    the one request. *)
Theorem fetch_failure `{Engine} (env : Outside) (w : World) (e : thrown) :
  (getOctokit_throws env = Some e →
   fetchRepositories env w = (inl e, w) ∧
   ∀ o, fetchRepositoriesByOwner env o w = (inl e, w)) ∧
  (getOctokit_throws env = None →
   (listForAuthenticatedUser env = inl e →
    fetchRepositories env w =
      (inl (handleGitHubError e),
       {| storage := storage w; component := component w; ticks := ticks w;
          asked := asked w;
          log := log w ++ [Network ReposListForAuthenticatedUser] |})) ∧
   (∀ o, listForUser env o = inl e →
    fetchRepositoriesByOwner env o w =
      (inl (handleGitHubError e),
       {| storage := storage w; component := component w; ticks := ticks w;
          asked := asked w;
          log := log w ++ [Network (ReposListForUser o)] |}))).
Proof.
  unfold fetchRepositories, fetchRepositoriesByOwner, getOctokit,
    octokit_repos_listForAuthenticatedUser, octokit_repos_listForUser.
  unfold try_catch, throw, skip, emit, mbind, M_bind, mret, M_ret.
  split; intros Ho; rewrite Ho; [done|].
  split; [intros Hl|intros o Hl]; by rewrite Hl.
Qed.

Lemma fetch_failure_witness :
  (@fetchRepositories Reference.engine (Reference.offline 0) (on_mount ∅)).1 =
  inl (JsError "Unable to connect to GitHub. Please check your internet connection.").
Proof.
  destruct (@fetch_failure Reference.engine (Reference.offline 0) (on_mount ∅)
              (JsError "getaddrinfo ENOTFOUND api.github.com")) as [_ Hlist].
  destruct (Hlist eq_refl) as [Hrun _].
  rewrite (Hrun eq_refl). reflexivity.
Defined.

(** ** More on the ranking *)

Section ArraySortMore.
Context {A : Type}.

(** A list that is already in order is left as it is. *)
Lemma Array_sort_sorted_id (compareFn : A → A → Q) (l : list A) :
  StronglySorted (may_precede compareFn) l → Array_sort compareFn l = l.
Proof.
  induction 1 as [|x l Hl IH Hx]; simpl; [done|].
  rewrite IH. destruct l as [|y l]; simpl; [done|].
  apply Forall_cons in Hx as [Hxy _]. unfold may_precede in Hxy.
  apply Qle_bool_iff in Hxy. by rewrite Hxy.
Qed.

(** Only what the comparator says on the elements of the list matters. *)
Lemma sort_insert_ext (f g : A → A → Q) (x : A) (l : list A) :
  (∀ y, y ∈ l → f x y = g x y) → sort_insert f x l = sort_insert g x l.
Proof.
  induction l as [|y l IH]; intros Hfg; simpl; [done|].
  rewrite (Hfg y) by left. destruct (Qle_bool (g x y) 0); [done|].
  f_equal. apply IH. intros z Hz. apply Hfg. by right.
Qed.

Lemma Array_sort_ext (f g : A → A → Q) (l : list A) :
  (∀ x y, x ∈ l → y ∈ l → f x y = g x y) → Array_sort f l = Array_sort g l.
Proof.
  induction l as [|x l IH]; intros Hfg; simpl; [done|].
  rewrite IH by (intros; apply Hfg; by right).
  apply sort_insert_ext. intros y Hy. apply Hfg; [left|right].
  by rewrite Array_sort_perm in Hy.
Qed.
End ArraySortMore.

(** X6.  Ranking is idempotent: a list that comes out of
    [sortRepositoriesByAccess] is left as it is when it is ranked again
    with the same access times. *)
Theorem sortRepositoriesByAccess_idempotent
    (repos : list Repository) (accessTimes : RepositoryAccessTimes) :
  sortRepositoriesByAccess (sortRepositoriesByAccess repos accessTimes)
    accessTimes =
  sortRepositoriesByAccess repos accessTimes.
Proof.
  apply Array_sort_sorted_id, sortRepositoriesByAccess_sorted.
Qed.

(** X7.  The ranking reads the access times of the listed repositories
    only: two ledgers that agree on their ids rank the list alike,
    whatever else they hold. *)
Theorem sortRepositoriesByAccess_reads_listed_ids
    (repos : list Repository) (times1 times2 : RepositoryAccessTimes) :
  (∀ r, r ∈ repos → times1 !! id r = times2 !! id r) →
  sortRepositoriesByAccess repos times1 = sortRepositoriesByAccess repos times2.
Proof.
  intros Hagree. apply Array_sort_ext. intros x y Hx Hy.
  unfold compareByAccess, accessTime. by rewrite (Hagree x), (Hagree y).
Qed.

Lemma sortRepositoriesByAccess_reads_listed_ids_witness :
  let repos :=
    [Reference.repository "1" "octocat" 3; Reference.repository "2" "octocat" 9] in
  sortRepositoriesByAccess repos {["1" := 100]} =
  sortRepositoriesByAccess repos (<["gone" := 500]> {["1" := 100]}).
Proof.
  intros repos. apply sortRepositoriesByAccess_reads_listed_ids.
  intros r Hr.
  apply elem_of_cons in Hr as [->|Hr]; [reflexivity|].
  apply list_elem_of_singleton in Hr as ->. reflexivity.
Defined.

(** X8.  What a fetch returns is in ranking order already for a user who
    has opened none of the repositories: ranked with a ledger in which
    every listed repository has access time 0, the list stays as it is. *)
Theorem sortRepositoriesByAccess_of_fetched_unvisited `{Engine}
    (env : Outside) (w : World) (repos : list Repository)
    (accessTimes : RepositoryAccessTimes) :
  (fetchRepositories env w).1 = inr repos ∨
  (∃ o, (fetchRepositoriesByOwner env o w).1 = inr repos) →
  (∀ r, r ∈ repos → accessTime accessTimes r = 0) →
  sortRepositoriesByAccess repos accessTimes = repos.
Proof.
  intros Hrun Hzero.
  assert (∃ l, repos = Array_sort compareByUsageScore l) as [l Hl].
  { destruct Hrun as [Hrun|[o Hrun]].
    - destruct (fetchRepositories env w) as [r w'] eqn:E. simpl in Hrun.
      subst r. by eapply fetchRepositories_inr.
    - destruct (fetchRepositoriesByOwner env o w) as [r w'] eqn:E.
      simpl in Hrun. subst r. by eapply fetchRepositoriesByOwner_inr. }
  unfold sortRepositoriesByAccess.
  rewrite (Array_sort_ext (compareByAccess accessTimes) compareByUsageScore).
  - apply Array_sort_sorted_id. rewrite Hl. apply compareByUsageScore_sorted.
  - intros x y Hx Hy. unfold compareByAccess.
    by rewrite (Hzero x), (Hzero y).
Qed.

Lemma sortRepositoriesByAccess_of_fetched_unvisited_witness :
  let env :=
    Reference.online 1704067200000
      [Reference.api_repo 1 (Some 0) "2024-01-01T00:00:00Z";
       Reference.api_repo 2 (Some 10) "2024-01-01T00:00:00Z"] in
  let repos :=
    match (@fetchRepositories Reference.engine env (on_mount ∅)).1 with
    | inr l => l
    | inl _ => []
    end in
  sortRepositoriesByAccess repos ∅ = repos.
Proof.
  intros env repos.
  apply (@sortRepositoriesByAccess_of_fetched_unvisited Reference.engine env
           (on_mount ∅)); [left; vm_compute; reflexivity|].
  intros r _. reflexivity.
Defined.

(** X9.  The repository that was opened last comes first: once its id is
    bound to a time later than the access time of every other listed
    repository, the ranking starts with it. *)
Theorem sortRepositoriesByAccess_latest_first
    (repos : list Repository) (accessTimes : RepositoryAccessTimes)
    (repoId : string) (now : Z) (r : Repository) :
  r ∈ repos → id r = repoId →
  (∀ r', r' ∈ repos → id r' ≠ repoId → accessTime accessTimes r' < now) →
  ∃ first rest,
    sortRepositoriesByAccess repos (<[repoId := now]> accessTimes) =
      first :: rest ∧
    id first = repoId.
Proof.
  intros Hr Hid Hothers.
  set (times' := <[repoId := now]> accessTimes).
  pose proof (sortRepositoriesByAccess_sorted times' repos) as Hsorted.
  assert (sortRepositoriesByAccess repos times' ≡ₚ repos) as Hperm
    by apply Array_sort_perm.
  destruct (sortRepositoriesByAccess repos times') as [|first rest] eqn:E.
  { apply Permutation_nil_l in Hperm. subst repos. by apply elem_of_nil in Hr. }
  exists first, rest. split; [done|].
  destruct (decide (id first = repoId)) as [|Hne]; [done|exfalso].
  assert (accessTime times' r = now) as Hnow.
  { unfold accessTime, times'. rewrite Hid, lookup_insert_eq. simpl.
    by destruct (Z.eqb_spec now 0). }
  assert (accessTime times' first = accessTime accessTimes first) as Hfirst.
  { unfold accessTime, times'. by rewrite lookup_insert_ne. }
  assert (first ∈ repos) as Hin by (rewrite <- Hperm; left).
  pose proof (Hothers first Hin Hne) as Hlt.
  assert (r ∈ rest) as Hrest.
  { assert (r ∈ first :: rest) as H' by by rewrite Hperm.
    apply elem_of_cons in H' as [->|]; [congruence|done]. }
  apply StronglySorted_inv in Hsorted as [_ Hall].
  rewrite Forall_forall in Hall. specialize (Hall r Hrest).
  apply compareByAccess_may_precede in Hall. lia.
Qed.

Lemma sortRepositoriesByAccess_latest_first_witness :
  let a := Reference.repository "1" "octocat" 1000 in
  let b := Reference.repository "2" "octocat" 0 in
  ∃ first rest,
    sortRepositoriesByAccess [a; b] (<["2" := 200]> {["1" := 100]}) =
      first :: rest ∧
    id first = "2".
Proof.
  intros a b.
  apply (sortRepositoriesByAccess_latest_first [a; b] {["1" := 100]} "2" 200 b).
  - apply list_elem_of_In. simpl. auto.
  - reflexivity.
  - intros r' Hr' Hne.
    apply elem_of_cons in Hr' as [->|Hr']; [vm_compute; reflexivity|].
    apply list_elem_of_singleton in Hr' as ->. by destruct Hne.
Defined.

(** ** More on the ledger and the cache *)

Section StoreMore.
Context `{Json RepositoryAccessTimes} `{Json (list Repository)}.

(** What is read from the store depends on the store only. *)
Lemma getAccessTimes_storage w1 w2 :
  storage w1 !! STORAGE_KEY = storage w2 !! STORAGE_KEY →
  (getAccessTimes w1).1 = (getAccessTimes w2).1.
Proof.
  intros Hs.
  unfold getAccessTimes, LocalStorage_getItem, parse, mbind, M_bind, mret,
    M_ret, throw.
  rewrite Hs. repeat (case_match; simplify_eq/=); done.
Qed.

Lemma getCachedRepositories_storage w1 w2 :
  storage w1 !! CACHE_KEY = storage w2 !! CACHE_KEY →
  (getCachedRepositories w1).1 = (getCachedRepositories w2).1.
Proof.
  intros Hs.
  unfold getCachedRepositories, LocalStorage_getItem, parse, mbind, M_bind,
    mret, M_ret, throw.
  rewrite Hs. repeat (case_match; simplify_eq/=); done.
Qed.

Lemma updateAccessTime_run (env : Outside) (repoId : string) w :
  match (getAccessTimes w).1 with
  | inl e => updateAccessTime env repoId w = (inl e, w)
  | inr before =>
      let text := JSON_stringify (<[repoId := clock env (ticks w)]> before) in
      updateAccessTime env repoId w =
        (inr (),
         {| storage := <[STORAGE_KEY := text]> (storage w);
            component := component w; ticks := S (ticks w); asked := asked w;
            log := log w ++ [Stored STORAGE_KEY text] |})
  end.
Proof.
  destruct (getAccessTimes w) as [r w0] eqn:Hget.
  pose proof (getAccessTimes_world _ _ _ Hget) as ->.
  unfold updateAccessTime, mbind, M_bind. rewrite Hget.
  by destruct r.
Qed.
End StoreMore.

(** X10.  A click on a repository, with a readable ledger: the access is
    written to the ledger, the list on screen becomes the ranking of the
    repositories the component holds with the new ledger, and nothing else
    happens: no request, no other write, [repositories], [isLoading],
    [error] and [currentUser] as before. *)
Theorem handleRepositoryClick_reranks
    `{JsonLaws RepositoryAccessTimes}
    (env : Outside) (w : World) (repoId : string)
    (before : RepositoryAccessTimes) :
  (getAccessTimes w).1 = inr before →
  let after := <[repoId := clock env (ticks w)]> before in
  let c := component w in
  ∃ (w' : World) (events : list Event),
    handleRepositoryClick env repoId w = (inr (), w') ∧
    component w' =
      {| repositories := repositories c;
         sortedRepositories := sortRepositoriesByAccess (repositories c) after;
         isLoading := isLoading c; error := error c;
         currentUser := currentUser c; accessTimes := after |} ∧
    storage w' = <[STORAGE_KEY := JSON_stringify after]> (storage w) ∧
    log w' = log w ++ events ∧
    requests events = [] ∧
    writes events = [(STORAGE_KEY, JSON_stringify after)].
Proof.
  intros Hread after c.
  pose proof (updateAccessTime_run env repoId w) as Hup.
  rewrite Hread in Hup. cbv zeta in Hup. fold after in Hup.
  unfold handleRepositoryClick, mbind at 1, M_bind at 1. rewrite Hup.
  unfold mbind at 1, M_bind at 1.
  erewrite getAccessTimes_after_setItem; [|reflexivity].
  eexists _, [_; _; _]. split; [reflexivity|]. simpl.
  split; [reflexivity|]. split; [reflexivity|].
  split; [by rewrite <- !app_assoc|]. done.
Qed.

Lemma handleRepositoryClick_reranks_witness :
  let w :=
    {| storage := Reference.store 1704067200000;
       component :=
         {| repositories := Reference.cached;
            sortedRepositories := Reference.cached;
            isLoading := false; error := None; currentUser := "octocat";
            accessTimes := ∅ |};
       ticks := 0; asked := 0; log := [] |} in
  let env := Reference.online 1704069000000 [] in
  ∃ w',
    @handleRepositoryClick Reference.json_times env "1" w = (inr (), w') ∧
    id <$> sortedRepositories (component w') = ["1"; "2"].
Proof.
  intros w env.
  destruct (@handleRepositoryClick_reranks Reference.json_times
              (Reference_json_laws _) env w "1" Reference.times)
    as (w' & events & Hrun & Hc & _); [vm_compute; reflexivity|].
  exists w'. split; [exact Hrun|]. rewrite Hc. vm_compute. reflexivity.
Defined.

(** X11.  With a ledger that cannot be parsed, recording an access throws
    what [JSON.parse] throws and changes nothing: the unreadable text stays
    in the store, and a click neither writes nor re-ranks. *)
Theorem updateAccessTime_unreadable_ledger
    `{Json RepositoryAccessTimes}
    (env : Outside) (w : World) (repoId : string) (e : thrown) :
  (getAccessTimes w).1 = inl e →
  updateAccessTime env repoId w = (inl e, w) ∧
  handleRepositoryClick env repoId w = (inl e, w).
Proof.
  intros Hread.
  pose proof (updateAccessTime_run env repoId w) as Hup.
  rewrite Hread in Hup.
  split; [done|]. unfold handleRepositoryClick, mbind, M_bind. by rewrite Hup.
Qed.

Lemma updateAccessTime_unreadable_ledger_witness :
  let w := on_mount (<[STORAGE_KEY := "not json"]> ∅) in
  @updateAccessTime Reference.json_times (Reference.online 0 []) "1" w =
    (inl (JsError "Unexpected token in JSON"), w).
Proof.
  intros w.
  apply (@updateAccessTime_unreadable_ledger Reference.json_times).
  vm_compute. reflexivity.
Defined.

(** X12.  Recording an access writes the ledger key only: every other key
    of the store keeps its value, so the cached repositories and the
    fetch timestamp read as before. *)
Theorem updateAccessTime_leaves_cache
    `{Json RepositoryAccessTimes} `{Json (list Repository)}
    (env : Outside) (w : World) (repoId : string) :
  let w' := (updateAccessTime env repoId w).2 in
  (∀ k, k ≠ STORAGE_KEY → storage w' !! k = storage w !! k) ∧
  (getCachedRepositories w').1 = (getCachedRepositories w).1 ∧
  fetchedAt (storage w') = fetchedAt (storage w).
Proof.
  pose proof (updateAccessTime_run env repoId w) as Hup.
  assert (∀ k, k ≠ STORAGE_KEY →
            storage (updateAccessTime env repoId w).2 !! k = storage w !! k)
    as Hframe.
  { intros k Hk. destruct (getAccessTimes w).1; rewrite Hup; [done|].
    simpl. by rewrite lookup_insert_ne. }
  cbv zeta. split; [done|]. split.
  - apply getCachedRepositories_storage. by apply Hframe.
  - unfold fetchedAt. by rewrite Hframe.
Qed.

(** X13.  The cache round trip: what [setCachedRepositories] stores is what
    [getCachedRepositories] reads next, whole and in order; the write
    leaves the ledger as it was. *)
Theorem setCachedRepositories_then_getCachedRepositories
    `{Json RepositoryAccessTimes} `{JsonLaws (list Repository)}
    (env : Outside) (w : World) (repos : list Repository) :
  let w' := (setCachedRepositories env repos w).2 in
  (getCachedRepositories w').1 = inr (Some repos) ∧
  (getAccessTimes w').1 = (getAccessTimes w).1.
Proof.
  cbv zeta. rewrite setCachedRepositories_run. split.
  - unfold getCachedRepositories, LocalStorage_getItem, parse, mbind, M_bind.
    cbn [snd storage fst].
    rewrite lookup_insert_ne by done. rewrite lookup_insert_eq.
    rewrite truthy_Some_true by apply JSON_stringify_truthy.
    by rewrite JSON_parse_stringify.
  - apply getAccessTimes_storage. cbn [snd storage].
    by rewrite !lookup_insert_ne.
Qed.

Lemma setCachedRepositories_then_getCachedRepositories_witness :
  let env := Reference.online 1704067200000 [] in
  let w' :=
    (@setCachedRepositories Reference.json_repos env Reference.cached
       (on_mount ∅)).2 in
  (@getCachedRepositories Reference.json_repos w').1 =
    inr (Some Reference.cached).
Proof.
  apply (@setCachedRepositories_then_getCachedRepositories
           Reference.json_times Reference.json_repos (Reference_json_laws _)).
Defined.

(** X14.  A check of the cache right after a write of it compares two
    consecutive clock readings: the cache is valid exactly when less than
    [CACHE_DURATION] went by between the write and the check. *)
Theorem setCachedRepositories_then_isCacheValid
    `{Json (list Repository)}
    (env : Outside) (w : World) (repos : list Repository) :
  ((setCachedRepositories env repos;; isCacheValid env) w).1 =
  inr (bool_decide
         (clock env (S (ticks w)) - clock env (ticks w) < CACHE_DURATION)).
Proof.
  unfold mbind, M_bind. rewrite setCachedRepositories_run.
  unfold isCacheValid, LocalStorage_getItem, Date_now, mbind, M_bind.
  cbn [storage ticks fst snd]. rewrite lookup_insert_eq.
  rewrite Number_toString_truthy, parseInt_Number_toString.
  unfold mret, M_ret. cbn [fst ticks]. f_equal.
  destruct (Z.ltb_spec (clock env (S (ticks w)) - clock env (ticks w))
              CACHE_DURATION);
    symmetry; [by apply bool_decide_eq_true_2|apply bool_decide_eq_false_2; lia].
Qed.

(** ** More on the load flow *)

#[local] Arguments handleGitHubError : simpl never.

(** The next call of a run whose answer is not known is split into its
    cases; what is known about the answer is kept. *)
Ltac load_step :=
  match goal with
  | |- context [isCacheValid ?e ?W] =>
      let b := fresh "valid" in
      let Hr := fresh "Hr" in
      let Hb := fresh "Hvalid" in
      destruct (isCacheValid_run e W) as (b & Hr & Hb);
      rewrite Hr; clear Hr; cbn [storage ticks] in Hb; destruct b
  | |- context [fetchRepositories ?e ?W] =>
      let Hr := fresh "Hr" in
      let Hf := fresh "Hfetch" in
      destruct (fetchRepositories_cases e W)
        as [(? & ? & [Hr|Hr])|(? & ? & ? & ? & ? & Hr)];
      try congruence;
      pose proof Hr as Hf; rewrite Hr; clear Hr
  | |- context [setCachedRepositories ?e ?l ?W] =>
      rewrite (setCachedRepositories_run e l W)
  | |- context [octokit_users_getAuthenticated ?e ?W] =>
      unfold octokit_users_getAuthenticated
  | |- context [getAuthenticated ?e ?n] =>
      let E := fresh "Hlookup" in
      destruct (getAuthenticated e n) as [[?|]|?] eqn:E
  | |- context [(0 <? length ?l)%nat] =>
      let E := fresh "Hlen" in
      destruct (0 <? length l)%nat eqn:E
  end; cbn -[app insert Nat.ltb].

Ltac sublist_of_requests :=
  repeat first [apply sublist_nil | apply sublist_skip | apply sublist_cons].

Section LoadMore.
Context `{Engine}.
Context `{Json RepositoryAccessTimes} `{Json (list Repository)}.
Variable env : Outside.

Lemma loadRepositories_settles_aux w :
  ∃ (w' : World) (events : list Event),
    loadRepositories env w = (inr (), w') ∧
    isLoading (component w') = false ∧
    log w' = log w ++ events ∧
    requests events `sublist_of`
      [UsersGetAuthenticated; ReposListForAuthenticatedUser;
       UsersGetAuthenticated].
Proof.
  unfold loadRepositories, try_finally, try_catch, mbind, M_bind, getOctokit.
  destruct (getAccessTimes w) as [[e|times] w0] eqn:Et;
    apply getAccessTimes_world in Et as ->.
  { cbn -[app]. eexists _, _. split; [reflexivity|]. split; [reflexivity|].
    split; [rewrite <- ?app_assoc; reflexivity|]. simpl. sublist_of_requests. }
  destruct (getCachedRepositories w) as [[e|cached] w0] eqn:Ec;
    apply getCachedRepositories_world in Ec as ->.
  { cbn -[app]. eexists _, _. split; [reflexivity|]. split; [reflexivity|].
    split; [rewrite <- ?app_assoc; reflexivity|]. simpl. sublist_of_requests. }
  destruct (getOctokit_throws env) as [eo|] eqn:Ho;
  destruct cached as [[|first rest]|]; cbn -[app insert Nat.ltb];
  try destruct (truthy (Some (owner first))); cbn -[app insert Nat.ltb];
  repeat load_step.
  all: eexists _, _; split; [reflexivity|]; split; [reflexivity|];
       split; [rewrite <- ?app_assoc; reflexivity|];
       simpl; sublist_of_requests.
Qed.

Lemma loadRepositories_unreadable_aux w e :
  (getAccessTimes w).1 = inl e ∨
  ((∃ times, (getAccessTimes w).1 = inr times) ∧
   (getCachedRepositories w).1 = inl e) →
  let message :=
    match e with
    | JsError message => message
    | JsOther => "Failed to load repositories"
    end in
  let c := component w in
  let failed :=
    {| repositories := repositories c;
       sortedRepositories := sortedRepositories c;
       isLoading := isLoading c; error := Some message;
       currentUser := currentUser c; accessTimes := accessTimes c |} in
  let settled :=
    {| repositories := repositories c;
       sortedRepositories := sortedRepositories c;
       isLoading := false; error := Some message;
       currentUser := currentUser c; accessTimes := accessTimes c |} in
  loadRepositories env w =
    (inr (),
     {| storage := storage w; component := settled; ticks := ticks w;
        asked := asked w;
        log := log w ++
               [Shown failed; Toast "Error loading repositories" message;
                Shown settled] |}).
Proof.
  intros Hbad.
  unfold loadRepositories, try_finally, try_catch, mbind, M_bind.
  destruct (getAccessTimes w) as [[e'|times] w0] eqn:Et;
    apply getAccessTimes_world in Et as ->; simpl in Hbad.
  - destruct Hbad as [[= ->]|[[? [=]] _]].
    cbn -[app]. by rewrite <- !app_assoc.
  - destruct Hbad as [[=]|[_ Hbad]].
    destruct (getCachedRepositories w) as [r w0] eqn:Ec;
      apply getCachedRepositories_world in Ec as ->.
    simpl in Hbad. subst r. cbn -[app]. by rewrite <- !app_assoc.
Qed.

(** The leaves of a run with a cache that is within the window, or out
    of it, at every clock reading. *)
Ltac not_valid_not_stale :=
  match goal with
  | Hfresh : ∀ n : nat, _ < CACHE_DURATION, Hat : fetchedAt _ = Some ?t,
    Hv : false = true ↔ _ |- _ =>
      exfalso; destruct Hv as [_ Hv];
      assert (false = true) as Hcontra
        by (apply Hv; exists t; split; [exact Hat|apply Hfresh]);
      discriminate Hcontra
  | Hstale : ∀ (n : nat) (t : Z), _ → CACHE_DURATION ≤ _,
    Hv : true = true ↔ _ |- _ =>
      exfalso; destruct Hv as [Hv _];
      destruct (Hv eq_refl) as (? & Hat & Hlt);
      match type of Hlt with
      | clock _ ?N - _ < _ => pose proof (Hstale N _ Hat)
      end; lia
  end.

Lemma loadRepositories_fresh_aux ls times cached t :
  (getAccessTimes (on_mount ls)).1 = inr times →
  (getCachedRepositories (on_mount ls)).1 = inr (Some cached) →
  fetchedAt ls = Some t →
  (∀ n, clock env n - t < CACHE_DURATION) →
  ∃ w',
    loadRepositories env (on_mount ls) = (inr (), w') ∧
    storage w' = ls ∧
    writes (log w') = [] ∧
    requests (log w') `sublist_of` [UsersGetAuthenticated] ∧
    repositories (component w') = cached ∧
    sortedRepositories (component w') = sortRepositoriesByAccess cached times ∧
    isLoading (component w') = false ∧
    error (component w') = None.
Proof.
  intros Ht Hc Hat Hfresh.
  unfold loadRepositories, try_finally, try_catch, mbind, M_bind, getOctokit.
  destruct (getAccessTimes (on_mount ls)) as [r w0] eqn:Et;
    apply getAccessTimes_world in Et as ->.
  simpl in Ht. subst r.
  destruct (getCachedRepositories (on_mount ls)) as [r w0] eqn:Ec;
    apply getCachedRepositories_world in Ec as ->.
  simpl in Hc. subst r.
  destruct (getOctokit_throws env) as [eo|] eqn:Ho;
  destruct cached as [|first rest]; cbn -[app insert Nat.ltb];
  try destruct (truthy (Some (owner first))); cbn -[app insert Nat.ltb];
  repeat (load_step; try not_valid_not_stale).
  all: eexists; split; [reflexivity|]; simpl;
       repeat split; sublist_of_requests.
Qed.




Lemma fetchRepositories_listing_fails w e :
  getOctokit_throws env = None →
  listForAuthenticatedUser env = inl e →
  fetchRepositories env w =
    (inl (handleGitHubError e),
     {| storage := storage w; component := component w; ticks := ticks w;
        asked := asked w;
        log := log w ++ [Network ReposListForAuthenticatedUser] |}).
Proof.
  intros Ho Hl.
  unfold fetchRepositories, getOctokit, octokit_repos_listForAuthenticatedUser.
  unfold try_catch, throw, skip, emit, mbind, M_bind, mret, M_ret.
  by rewrite Ho, Hl.
Qed.

Lemma loadRepositories_failed_refresh_aux ls times cached e message :
  (getAccessTimes (on_mount ls)).1 = inr times →
  (getCachedRepositories (on_mount ls)).1 = inr (Some cached) →
  (∀ n t, fetchedAt ls = Some t → CACHE_DURATION ≤ clock env n - t) →
  getOctokit_throws env = None →
  listForAuthenticatedUser env = inl e →
  handleGitHubError e = JsError message →
  ∃ w',
    loadRepositories env (on_mount ls) = (inr (), w') ∧
    storage w' = ls ∧
    sortedRepositories (component w') = sortRepositoriesByAccess cached times ∧
    error (component w') = Some message ∧
    isLoading (component w') = false ∧
    Toast "Error loading repositories" message ∈ log w' ∧
    (message ≠ "" →
     body (render (component w')) =
       EmptyView "Error loading repositories" message).
Proof.
  intros Ht Hc Hstale Ho Hl Hm.
  unfold loadRepositories, try_finally, try_catch, mbind, M_bind, getOctokit.
  destruct (getAccessTimes (on_mount ls)) as [r w0] eqn:Et;
    apply getAccessTimes_world in Et as ->.
  simpl in Ht. subst r.
  destruct (getCachedRepositories (on_mount ls)) as [r w0] eqn:Ec;
    apply getCachedRepositories_world in Ec as ->.
  simpl in Hc. subst r. rewrite Ho.
  destruct cached as [|first rest]; cbn -[app insert Nat.ltb];
    try destruct (truthy (Some (owner first))); cbn -[app insert Nat.ltb];
    repeat (first
              [ rewrite (fetchRepositories_listing_fails _ e Ho Hl), Hm;
                cbn -[app insert Nat.ltb]
              | load_step ];
            try not_valid_not_stale).
  all: eexists; split; [reflexivity|]; simpl.
  all: repeat (split; [reflexivity|]).
  all: split;
       [ repeat first [apply list_elem_of_here | apply list_elem_of_further]
       | intros Hne; unfold render; simpl;
         destruct message; [done|reflexivity] ].
Qed.

Lemma loadRepositories_no_cache_aux ls times :
  (getAccessTimes (on_mount ls)).1 = inr times →
  (getCachedRepositories (on_mount ls)).1 = inr None →
  getOctokit_throws env = None →
  ∃ w' rest,
    loadRepositories env (on_mount ls) = (inr (), w') ∧
    requests (log w') = ReposListForAuthenticatedUser :: rest ∧
    shown_at_request any_request mounted (log w') = Some mounted.
Proof.
  intros Ht Hc Ho.
  unfold loadRepositories, try_finally, try_catch, mbind, M_bind, getOctokit.
  destruct (getAccessTimes (on_mount ls)) as [r w0] eqn:Et;
    apply getAccessTimes_world in Et as ->.
  simpl in Ht. subst r.
  destruct (getCachedRepositories (on_mount ls)) as [r w0] eqn:Ec;
    apply getCachedRepositories_world in Ec as ->.
  simpl in Hc. subst r. rewrite Ho.
  cbn -[app insert Nat.ltb].
  destruct (listForAuthenticatedUser env) as [e|raws] eqn:Hl;
    repeat (first
              [ rewrite (fetchRepositories_listing_fails _ e Ho Hl);
                cbn -[app insert Nat.ltb]
              | match goal with
                | |- context [fetchRepositories env ?W] =>
                    destruct (fetchRepositories_returns env W raws Ho Hl)
                      as (? & -> & ?); cbn -[app insert Nat.ltb]
                end
              | load_step ]).
  all: eexists _, _; split; [reflexivity|]; simpl; split; reflexivity.
Qed.
End LoadMore.

(** ** The two revisions of the load *)

Section Revisions.
Context `{Engine}.
Context `{Json RepositoryAccessTimes} `{Json (list Repository)}.
Variable env : Outside.

Lemma getAccessTimes_at w W times :
  (getAccessTimes w).1 = inr times →
  storage W !! STORAGE_KEY = storage w !! STORAGE_KEY →
  getAccessTimes W = (inr times, W).
Proof.
  intros Ht Hs.
  destruct (getAccessTimes W) as [r W'] eqn:E.
  pose proof (getAccessTimes_world _ _ _ E) as ->.
  pose proof (getAccessTimes_storage W w Hs) as Heq.
  rewrite E, Ht in Heq. simpl in Heq. by subst r.
Qed.

Lemma getCachedRepositories_absent w :
  truthy (storage w !! CACHE_KEY) = false →
  getCachedRepositories w = (inr None, w).
Proof.
  intros Hk.
  unfold getCachedRepositories, LocalStorage_getItem, mbind, M_bind.
  destruct (storage w !! CACHE_KEY); [by rewrite Hk|done].
Qed.

Lemma isCacheValid_no_timestamp w :
  truthy (storage w !! CACHE_TIMESTAMP_KEY) = false →
  isCacheValid env w = (inr false, w).
Proof.
  intros Hk.
  unfold isCacheValid, LocalStorage_getItem, mbind, M_bind.
  destruct (storage w !! CACHE_TIMESTAMP_KEY); [by rewrite Hk|done].
Qed.

Lemma fetchRepositories_no_client w e :
  getOctokit_throws env = Some e → fetchRepositories env w = (inl e, w).
Proof.
  intros Ho. unfold fetchRepositories, getOctokit, mbind, M_bind, throw.
  by rewrite Ho.
Qed.

Ltac same_requests :=
  eexists _, _;
  split; [rewrite <- ?app_assoc; reflexivity|];
  split; [rewrite <- ?app_assoc; reflexivity|];
  simpl; repeat (split; [reflexivity|]); reflexivity.

Lemma revisions_agree_aux w times :
  (getAccessTimes w).1 = inr times →
  truthy (storage w !! CACHE_KEY) = false →
  truthy (storage w !! CACHE_TIMESTAMP_KEY) = false →
  let new := (loadRepositories env w).2 in
  let old := (Uncached.loadRepositories env w).2 in
  ∃ events_new events_old,
    log new = log w ++ events_new ∧
    log old = log w ++ events_old ∧
    component new = component old ∧
    asked new = asked old ∧
    requests events_new = requests events_old ∧
    writes events_old = [] ∧
    storage old = storage w.
Proof.
  intros Ht Hk Hts. cbv zeta.
  unfold loadRepositories, Uncached.loadRepositories.
  unfold try_finally, try_catch, mbind, M_bind, getOctokit.
  rewrite (getAccessTimes_at w w times Ht eq_refl).
  rewrite getCachedRepositories_absent by done.
  cbn -[app insert Nat.ltb].
  rewrite isCacheValid_no_timestamp by done.
  cbn -[app insert Nat.ltb].
  destruct (getOctokit_throws env) as [eo|] eqn:Ho.
  - rewrite !(fetchRepositories_no_client _ eo Ho).
    cbn -[app insert Nat.ltb]. same_requests.
  - destruct (listForAuthenticatedUser env) as [e|raws] eqn:Hl.
    + rewrite !(fetchRepositories_listing_fails env _ e Ho Hl).
      cbn -[app insert Nat.ltb]. same_requests.
    + rewrite !(fetchRepositories_online env raws _ Ho Hl).
      cbn -[app insert Nat.ltb].
      rewrite setCachedRepositories_run.
      rewrite (getAccessTimes_at w _ times Ht) by reflexivity.
      cbn -[app insert Nat.ltb].
      destruct (0 <? length _)%nat; cbn -[app insert Nat.ltb];
        [|same_requests].
      unfold octokit_users_getAuthenticated. cbn -[app insert Nat.ltb].
      destruct (getAuthenticated env (asked w)) as [e|login];
        cbn -[app insert Nat.ltb]; same_requests.
Qed.
End Revisions.

(** X15.  A load never rejects and always ends with the loading indicator
    off.  It sends at most one listing request, with at most one user
    lookup before it and one after it, and no other request. *)
Theorem loadRepositories_settles
    `{Engine} `{Json RepositoryAccessTimes} `{Json (list Repository)}
    (env : Outside) (w : World) :
  ∃ (w' : World) (events : list Event),
    loadRepositories env w = (inr (), w') ∧
    isLoading (component w') = false ∧
    log w' = log w ++ events ∧
    requests events `sublist_of`
      [UsersGetAuthenticated; ReposListForAuthenticatedUser;
       UsersGetAuthenticated].
Proof. apply loadRepositories_settles_aux. Qed.

(** X16.  When the ledger cannot be parsed, or the ledger can and the cache
    cannot, the load stops there: it sends no request, reads no clock,
    writes nothing and shows nothing of the cache; it sets the message of
    what was thrown as the error, shows the toast and turns the loading
    indicator off. *)
Theorem loadRepositories_unreadable_store
    `{Engine} `{Json RepositoryAccessTimes} `{Json (list Repository)}
    (env : Outside) (w : World) (e : thrown) :
  (getAccessTimes w).1 = inl e ∨
  ((∃ times, (getAccessTimes w).1 = inr times) ∧
   (getCachedRepositories w).1 = inl e) →
  let message :=
    match e with
    | JsError message => message
    | JsOther => "Failed to load repositories"
    end in
  let c := component w in
  let failed :=
    {| repositories := repositories c;
       sortedRepositories := sortedRepositories c;
       isLoading := isLoading c; error := Some message;
       currentUser := currentUser c; accessTimes := accessTimes c |} in
  let settled :=
    {| repositories := repositories c;
       sortedRepositories := sortedRepositories c;
       isLoading := false; error := Some message;
       currentUser := currentUser c; accessTimes := accessTimes c |} in
  loadRepositories env w =
    (inr (),
     {| storage := storage w; component := settled; ticks := ticks w;
        asked := asked w;
        log := log w ++
               [Shown failed; Toast "Error loading repositories" message;
                Shown settled] |}).
Proof. apply loadRepositories_unreadable_aux. Qed.

Lemma loadRepositories_unreadable_store_witness :
  let ls := <[STORAGE_KEY := "not json"]> (Reference.store 1704067200000) in
  let w' :=
    (@loadRepositories Reference.engine Reference.json_times
       Reference.json_repos (Reference.online 1704067200001 [])
       (on_mount ls)).2 in
  error (component w') = Some "Unexpected token in JSON" ∧
  sortedRepositories (component w') = [] ∧
  requests (log w') = [].
Proof.
  intros ls w'. unfold w'.
  rewrite (@loadRepositories_unreadable_store Reference.engine
             Reference.json_times Reference.json_repos
             (Reference.online 1704067200001 []) (on_mount ls)
             (JsError "Unexpected token in JSON"));
    [done|].
  left. vm_compute. reflexivity.
Defined.

(** X17.  A cache that is within the window at every clock reading is
    trusted: the load sends no listing request and writes nothing, and it
    ends showing the cached repositories ranked with the ledger, without
    error; the rendered items are these, in ranking order. *)
Theorem loadRepositories_fresh_cache
    `{Engine} `{Json RepositoryAccessTimes} `{Json (list Repository)}
    (env : Outside) (ls : gmap string string)
    (times : RepositoryAccessTimes) (cached : list Repository) (t : Z) :
  (getAccessTimes (on_mount ls)).1 = inr times →
  (getCachedRepositories (on_mount ls)).1 = inr (Some cached) →
  fetchedAt ls = Some t →
  (∀ n, clock env n - t < CACHE_DURATION) →
  ∃ w',
    loadRepositories env (on_mount ls) = (inr (), w') ∧
    storage w' = ls ∧
    writes (log w') = [] ∧
    requests (log w') `sublist_of` [UsersGetAuthenticated] ∧
    repositories (component w') = cached ∧
    sortedRepositories (component w') = sortRepositoriesByAccess cached times ∧
    isLoading (component w') = false ∧
    error (component w') = None ∧
    (cached ≠ [] →
     ∃ items,
       body (render (component w')) = Items items ∧
       key <$> items = id <$> sortRepositoriesByAccess cached times).
Proof.
  intros Ht Hc Hat Hfresh.
  destruct (loadRepositories_fresh_aux env ls times cached t Ht Hc Hat Hfresh)
    as (w' & Hrun & Hs & Hw & Hr & Hrepos & Hsorted & Hload & Herr).
  exists w'. do 8 (split; [done|]).
  intros Hne. unfold render. rewrite Herr, Hload, Hsorted.
  assert (length (sortRepositoriesByAccess cached times) ≠ 0%nat) as Hlen.
  { unfold sortRepositoriesByAccess. rewrite Array_sort_length.
    by destruct cached. }
  apply Nat.eqb_neq in Hlen. cbn [body]. rewrite Hlen.
  change (truthy None) with false. cbn [andb].
  eexists. split; [reflexivity|].
  rewrite <- list_fmap_compose. by apply list_fmap_ext.
Qed.

Lemma loadRepositories_fresh_cache_witness :
  let t0 := 1704067200000 in
  let env := Reference.online (t0 + 1000) [] in
  ∃ w',
    @loadRepositories Reference.engine Reference.json_times
      Reference.json_repos env (on_mount (Reference.store t0)) = (inr (), w') ∧
    (ReposListForAuthenticatedUser ∉ requests (log w')) ∧
    id <$> sortedRepositories (component w') = ["2"; "1"].
Proof.
  intros t0 env.
  destruct (@loadRepositories_fresh_cache Reference.engine
              Reference.json_times Reference.json_repos env
              (Reference.store t0) Reference.times Reference.cached t0)
    as (w' & Hrun & _ & _ & Hr & _ & Hsorted & _);
    [vm_compute; reflexivity..|intros n; vm_compute; reflexivity|].
  exists w'. split; [exact Hrun|]. split.
  - intros Hin. eapply elem_of_sublist in Hin; [|exact Hr].
    apply list_elem_of_singleton in Hin. discriminate.
  - rewrite Hsorted. vm_compute. reflexivity.
Defined.



(** X19.  A refresh that fails while cached repositories are on screen:
    the store is left alone and the component keeps the ranked cache as
    its list, but the classified message is set as the error and shown in
    a toast, and with a message that is not empty the view rendered is the
    error view, not the list. *)
Theorem loadRepositories_failed_refresh
    `{Engine} `{Json RepositoryAccessTimes} `{Json (list Repository)}
    (env : Outside) (ls : gmap string string)
    (times : RepositoryAccessTimes) (cached : list Repository)
    (e : thrown) (message : string) :
  (getAccessTimes (on_mount ls)).1 = inr times →
  (getCachedRepositories (on_mount ls)).1 = inr (Some cached) →
  (∀ n t, fetchedAt ls = Some t → CACHE_DURATION ≤ clock env n - t) →
  getOctokit_throws env = None →
  listForAuthenticatedUser env = inl e →
  handleGitHubError e = JsError message →
  ∃ w',
    loadRepositories env (on_mount ls) = (inr (), w') ∧
    storage w' = ls ∧
    sortedRepositories (component w') = sortRepositoriesByAccess cached times ∧
    error (component w') = Some message ∧
    isLoading (component w') = false ∧
    Toast "Error loading repositories" message ∈ log w' ∧
    (message ≠ "" →
     body (render (component w')) =
       EmptyView "Error loading repositories" message).
Proof. apply loadRepositories_failed_refresh_aux. Qed.

Lemma loadRepositories_failed_refresh_witness :
  let message :=
    "Unable to connect to GitHub. Please check your internet connection." in
  ∃ w',
    @loadRepositories Reference.engine Reference.json_times
      Reference.json_repos (Reference.offline 1704069000000)
      (on_mount (Reference.store 1704067200000)) = (inr (), w') ∧
    body (render (component w')) =
      EmptyView "Error loading repositories" message.
Proof.
  intros message.
  destruct (@loadRepositories_failed_refresh Reference.engine
              Reference.json_times Reference.json_repos
              (Reference.offline 1704069000000)
              (Reference.store 1704067200000)
              Reference.times Reference.cached
              (JsError "getaddrinfo ENOTFOUND api.github.com") message)
    as (w' & Hrun & _ & _ & _ & _ & _ & Hview);
    [vm_compute; reflexivity..| |reflexivity|reflexivity|reflexivity|].
  - intros n t Ht. vm_compute in Ht. injection Ht as <-. vm_compute. discriminate.
  - exists w'. split; [exact Hrun|]. by apply Hview.
Defined.

(** X20.  With no cache in the store (and a client at hand), the first
    request of the load is the listing request, and when it goes out the
    component is still as mounted: loading, with nothing to show. *)
Theorem loadRepositories_no_cache
    `{Engine} `{Json RepositoryAccessTimes} `{Json (list Repository)}
    (env : Outside) (ls : gmap string string) (times : RepositoryAccessTimes) :
  (getAccessTimes (on_mount ls)).1 = inr times →
  (getCachedRepositories (on_mount ls)).1 = inr None →
  getOctokit_throws env = None →
  ∃ w' rest,
    loadRepositories env (on_mount ls) = (inr (), w') ∧
    requests (log w') = ReposListForAuthenticatedUser :: rest ∧
    shown_at_request any_request mounted (log w') = Some mounted.
Proof. apply loadRepositories_no_cache_aux. Qed.

Lemma loadRepositories_no_cache_witness :
  ∃ w' rest,
    @loadRepositories Reference.engine Reference.json_times
      Reference.json_repos (Reference.offline 0) (on_mount ∅) = (inr (), w') ∧
    requests (log w') = ReposListForAuthenticatedUser :: rest ∧
    shown_at_request any_request mounted (log w') = Some mounted.
Proof.
  apply (@loadRepositories_no_cache Reference.engine Reference.json_times
           Reference.json_repos (Reference.offline 0) ∅ ∅); reflexivity.
Defined.

(** X21.  On a store that holds neither cached repositories nor a fetch
    timestamp, with a readable ledger, the load through the cache does to
    the component what the earlier load without cache does, and sends the
    same requests in the same order; the earlier revision writes nothing
    to the store. *)
Theorem loadRepositories_agrees_with_earlier_revision
    `{Engine} `{Json RepositoryAccessTimes} `{Json (list Repository)}
    (env : Outside) (w : World) (times : RepositoryAccessTimes) :
  (getAccessTimes w).1 = inr times →
  truthy (storage w !! CACHE_KEY) = false →
  truthy (storage w !! CACHE_TIMESTAMP_KEY) = false →
  let new := (loadRepositories env w).2 in
  let old := (Uncached.loadRepositories env w).2 in
  ∃ events_new events_old,
    log new = log w ++ events_new ∧
    log old = log w ++ events_old ∧
    component new = component old ∧
    asked new = asked old ∧
    requests events_new = requests events_old ∧
    writes events_old = [] ∧
    storage old = storage w.
Proof. apply revisions_agree_aux. Qed.

Lemma loadRepositories_agrees_with_earlier_revision_witness :
  let env :=
    Reference.online 1704067200000
      [Reference.api_repo 1 (Some 0) "2024-01-01T00:00:00Z";
       Reference.api_repo 2 (Some 10) "2024-01-01T00:00:00Z"] in
  component
    (@loadRepositories Reference.engine Reference.json_times
       Reference.json_repos env (on_mount ∅)).2 =
  component
    (@Uncached.loadRepositories Reference.engine Reference.json_times env
       (on_mount ∅)).2.
Proof.
  intros env.
  destruct (@loadRepositories_agrees_with_earlier_revision Reference.engine
              Reference.json_times Reference.json_repos env (on_mount ∅) ∅)
    as (? & ? & _ & _ & Hc & _); [reflexivity..|exact Hc].
Defined.

(** ** More on the usage score *)

Lemma fl_proper `{EngineLaws} (x y : Q) : (x == y)%Q → (fl x == fl y)%Q.
Proof.
  intros Hxy. apply Qle_antisym; apply fl_monotone; rewrite Hxy; apply Qle_refl.
Qed.

(** X22.  The two dates weigh the same: the score does not change when
    [updated_at] and [pushed_at] are exchanged. *)
Theorem calculateUsageScore_symmetric `{EngineLaws}
    (now stars : Z) (updated_at pushed_at : string) :
  (calculateUsageScore now stars updated_at pushed_at ==
   calculateUsageScore now stars pushed_at updated_at)%Q.
Proof.
  unfold calculateUsageScore.
  apply fl_proper, Qplus_comp; [reflexivity|].
  apply fl_proper, Qplus_comm.
Qed.

Lemma calculateUsageScore_symmetric_witness :
  (@calculateUsageScore Reference.engine 1704067200000 5
     "2023-12-01T00:00:00Z" "2023-12-25T12:00:00Z" ==
   @calculateUsageScore Reference.engine 1704067200000 5
     "2023-12-25T12:00:00Z" "2023-12-01T00:00:00Z")%Q.
Proof.
  apply (@calculateUsageScore_symmetric Reference.engine Reference_engine_laws).
Defined.

(** X23.  The ranking is fixed by three properties: a list that is a
    rearrangement of the input, in which every element may stand in front
    of all that follow (later access first, then higher score), and in
    which the repositories the comparator does not tell apart are in input
    order, is the list [sortRepositoriesByAccess] returns. *)
Theorem sortRepositoriesByAccess_characterised
    (repos out : list Repository) (accessTimes : RepositoryAccessTimes) :
  out ≡ₚ repos →
  StronglySorted (may_precede (compareByAccess accessTimes)) out →
  (∀ x, filter (same_rank (compareByAccess accessTimes) x) out =
        filter (same_rank (compareByAccess accessTimes) x) repos) →
  out = sortRepositoriesByAccess repos accessTimes.
Proof.
  intros Hp Hs Hf.
  apply Array_sort_unique;
    [apply compareByAccess_flip|apply compareByAccess_trans|done..].
Qed.

Lemma sortRepositoriesByAccess_characterised_witness :
  let a := Reference.repository "A" "octocat" 0 in
  let b := Reference.repository "B" "octocat" 1000 in
  [a; b] = sortRepositoriesByAccess [b; a] {["A" := 100]}.
Proof.
  intros a b. apply sortRepositoriesByAccess_characterised.
  - apply Permutation_swap.
  - repeat constructor. vm_compute. discriminate.
  - intros x. rewrite !filter_cons, !filter_nil.
    destruct (decide (same_rank _ x a)) as [Ha|Ha];
      destruct (decide (same_rank _ x b)) as [Hb|Hb]; try done.
    exfalso. destruct Ha as [Hxa Hax], Hb as [Hxb Hbx].
    pose proof (compareByAccess_trans _ _ _ _ Hbx Hxa) as Hba.
    vm_compute in Hba. by apply Hba.
Defined.

(** C2, the case its statement leaves out.  The store holds a cache entry
    of two repositories next to a ledger that does not parse.  Reading the
    ledger throws before the cache is looked at: the load sends no
    request, and neither a state the component goes through nor the one
    it ends in lists the cached repositories, under any ledger. *)
Lemma loadRepositories_cache_hidden_by_unreadable_ledger :
  let ls := <[STORAGE_KEY := "not json"]> (Reference.store 1704067200000) in
  let events :=
    log (@loadRepositories Reference.engine Reference.json_times
           Reference.json_repos (Reference.online 1704067200001 [])
           (on_mount ls)).2 in
  (@getCachedRepositories Reference.json_repos (on_mount ls)).1 =
    inr (Some Reference.cached) ∧
  Reference.cached ≠ [] ∧
  requests events = [] ∧
  error (shown_after mounted events) = Some "Unexpected token in JSON" ∧
  ¬ ∃ (times : RepositoryAccessTimes) (c : Component),
      (Shown c ∈ events ∨ c = shown_after mounted events) ∧
      sortedRepositories c = sortRepositoriesByAccess Reference.cached times.
Proof.
  intros ls events.
  split; [vm_compute; reflexivity|]. split; [discriminate|].
  unfold events.
  rewrite (@loadRepositories_unreadable_aux Reference.engine
             Reference.json_times Reference.json_repos
             (Reference.online 1704067200001 []) (on_mount ls)
             (JsError "Unexpected token in JSON"));
    [|left; vm_compute; reflexivity].
  cbn [snd log on_mount app component].
  split; [reflexivity|]. split; [reflexivity|].
  intros (times & c & Hc & Hranked).
  apply (f_equal length) in Hranked.
  unfold sortRepositoriesByAccess in Hranked.
  rewrite Array_sort_length in Hranked.
  destruct Hc as [Hc| ->]; [|discriminate Hranked].
  rewrite !elem_of_cons, elem_of_nil in Hc.
  destruct Hc as [[= ->]|[[=]|[[= ->]|[]]]]; discriminate Hranked.
Qed.
